(** * Reachability by repeated addition: the two engines of [mics]

    The repository decides whether a value [c] shows up in a pair obtained
    from [(a, b)] by repeatedly replacing one coordinate with the sum of both.
    Two implementations exist:

    - [canReach] (math-solution.ts): a number-theoretic test that looks for
      coprime coefficients [m], [n] with [c = m*a + n*b];
    - [canReachBruteForce] (tree-search.ts): a breadth-first search of the
      generation tree with a visited set and an iteration cap.

    Both are embedded below as executable Rocq functions.  Each takes its
    arguments through [BigInt(...)]; the embedding starts from the resulting
    [bigint] values, which are [Z].  A call either returns, throws, or (in the
    model only) exhausts the fuel of one of its loops.

    The cap of the search is a JavaScript number.  The search is given twice:
    with an integer cap below [2 ^ 53], as every call of the repository has
    it, and with any number for a cap, [NaN] and the infinities among them;
    the first is shown to be the second at such a cap. *)

From stdpp Require Import gmap list strings.
From Stdlib Require Import ZArith Znumtheory Lia Ascii DecimalString DecimalZ.
From Stdlib Require Import QArith Qround.

Local Open Scope Z_scope.

(** * Part I: the programs *)

(** ** Outcomes of a call *)

Inductive exn : Type :=
| Error (msg : string)        (* [throw new Error(msg)] *)
| RangeError (msg : string).  (* raised by bigint division by zero *)

Inductive outcome (A : Type) : Type :=
| Return (v : A)
| Throw (e : exn)
| Diverge.                    (* a loop of the model ran out of fuel *)

Arguments Return {A} v.
Arguments Throw {A} e.
Arguments Diverge {A}.

(** Sequencing uses stdpp's monad interface: [x ← m; k] runs [m] and, when it
    returns, continues with [k]; a throw or an exhausted loop is passed on. *)
#[global] Instance outcome_bind : MBind outcome := λ A B k m,
  match m with
  | Return v => k v
  | Throw e => Throw e
  | Diverge => Diverge
  end.

#[global] Instance outcome_ret : MRet outcome := λ A v, Return v.

(** ** bigint arithmetic

    [/] truncates towards zero and [%] takes the sign of the dividend; both
    throw a [RangeError] when the divisor is [0n]. *)

Definition bigint_div (x y : Z) : outcome Z :=
  if y =? 0 then Throw (RangeError "Division by zero") else Return (Z.quot x y).

Definition bigint_rem (x y : Z) : outcome Z :=
  if y =? 0 then Throw (RangeError "Division by zero") else Return (Z.rem x y).

(** A bigint inside a template literal is rendered in decimal, with a leading
    [-] when negative. *)
Definition bigint_toString (z : Z) : string :=
  NilEmpty.string_of_int (Z.to_int z).

(** ** [gcd] (math-solution.ts, lines 27-34)

    The [while (y !== 0n)] loop, with the loop guard protecting the [%].
    [gcd_loop] counts rounds down from [fuel]; [gcd_fuel] is a number of
    rounds that the Euclidean algorithm never needs more than (lemma
    [gcd_returns]). *)

Fixpoint gcd_loop (fuel : nat) (x y : Z) : outcome Z :=
  match fuel with
  | O => Diverge
  | S fuel' =>
      if negb (y =? 0) then
        r ← bigint_rem x y;
        gcd_loop fuel' y r
      else Return x
  end.

Definition gcd_fuel (x y : Z) : nat :=
  S (S (Z.to_nat (Z.log2 (Z.abs x) + Z.log2 (Z.abs y) + 2))).

Definition gcd (x y : Z) : outcome Z :=
  let x := if x <? 0 then - x else x in
  let y := if y <? 0 then - y else y in
  gcd_loop (gcd_fuel x y) x y.

(** ** [canReach] (math-solution.ts, lines 88-165) *)

(** The body shared by the two [for] loops: does this [n] give a coprime
    representation [c = m*a + n*b]?  [&&] is short-circuit, so [%] and [/] are
    only evaluated when the tests before them passed. *)
Definition witness_at (a b c n : Z) : outcome bool :=
  let remainder := c - n * b in
  if remainder >? 0 then
    r ← bigint_rem remainder a;
    if r =? 0 then
      m ← bigint_div remainder a;
      if m >=? 1 then
        g ← gcd m n;
        mret (g =? 1)
      else mret false
    else mret false
  else mret false.

(** [for (let n = lo; n <= hi; n++) { if (witness) return true; }].  The result
    [true] stands for the early [return true], [false] for leaving the loop. *)
Fixpoint for_n (fuel : nat) (a b c n hi : Z) : outcome bool :=
  match fuel with
  | O => Diverge
  | S fuel' =>
      if n <=? hi then
        found ← witness_at a b c n;
        if found : bool then mret true else for_n fuel' a b c (n + 1) hi
      else mret false
  end.

(** The guard [n <= hi] is evaluated once more than the body runs. *)
Definition search_window (a b c lo hi : Z) : outcome bool :=
  for_n (S (Z.to_nat (hi - lo + 1))) a b c lo hi.

(** The error of line 98. *)
Definition invalid_input : exn := Error "All values must be positive integers".

Definition canReach (a b c : Z) : outcome bool :=
  if (a <=? 0) || (b <=? 0) || (c <=? 0) then Throw invalid_input
  (* Base case: c equals a or b *)
  else if (c =? a) || (c =? b) then mret true
  (* c smaller than both *)
  else if (c <? a) && (c <? b) then mret false
  else
    (* c must be divisible by gcd(a, b) *)
    g ← gcd a b;
    r ← bigint_rem c g;
    if negb (r =? 0) then mret false
    else
      (* c between a and b (exclusive) *)
      let minAB := if a <? b then a else b in
      let maxAB := if a >? b then a else b in
      if (c >? minAB) && (c <? maxAB) then mret false
      (* c must be >= a + b *)
      else if c <? a + b then mret false
      else
        maxN ← bigint_div (c - a) b;
        let iterLimit := if maxN <? 10000 then maxN else 10000 in
        found ← search_window a b c 1 iterLimit;
        if found : bool then mret true
        else
          (* For large c, also check from high end *)
          if c >=? a * b then
            let startN := if maxN >? 10000 then maxN - 10000 else 1 in
            found ← search_window a b c startN maxN;
            if found : bool then mret true else mret false
          else mret false.

(** ** [canReachBruteForce] (tree-search.ts, lines 20-168) *)

(** [nx < ny ? `${nx},${ny}` : `${ny},${nx}`] (lines 66 and 142) *)
Definition key (nx ny : Z) : string :=
  if nx <? ny then bigint_toString nx +:+ "," +:+ bigint_toString ny
  else bigint_toString ny +:+ "," +:+ bigint_toString nx.

(** The key of a queued pair. *)
Definition key_of (p : Z * Z) : string := key p.1 p.2.

(** The variables of the search loop, and two history lists that the program
    does not have: every pair that was ever put in the queue, and every pair
    that [shift()] took out of it. *)
Record state : Type := State {
  queue : list (Z * Z);
  visited : gset string;
  iterations : Z;
  pushed : list (Z * Z);
  shifted : list (Z * Z);
}.

(** [visited.add(k)] *)
Definition visited_add (k : string) (s : state) : state :=
  {| queue := queue s; visited := {[k]} ∪ visited s; iterations := iterations s;
     pushed := pushed s; shifted := shifted s |}.

(** [queue.push(p)] *)
Definition queue_push (p : Z * Z) (s : state) : state :=
  {| queue := queue s ++ [p]; visited := visited s; iterations := iterations s;
     pushed := pushed s ++ [p]; shifted := shifted s |}.

(** [iterations++] *)
Definition count_iteration (s : state) : state :=
  {| queue := queue s; visited := visited s; iterations := iterations s + 1;
     pushed := pushed s; shifted := shifted s |}.

(** [queue.shift()] when the front of the queue is [p] and the rest is [q] *)
Definition queue_shift (p : Z * Z) (q : list (Z * Z)) (s : state) : state :=
  {| queue := q; visited := visited s; iterations := iterations s;
     pushed := pushed s; shifted := shifted s ++ [p] |}.

(** Lines 62-70: the queue holds the start pair, whose key is marked. *)
Definition init_state (a b : Z) : state :=
  {| queue := [(a, b)]; visited := {[key a b]}; iterations := 0;
     pushed := [(a, b)]; shifted := [] |}.

(** One pass of the body of [for (const [nx, ny] of [child1, child2])]
    (lines 118-155).  The boolean is [true] when the body returned [true]. *)
Definition visit_child (c : Z) (child : Z * Z) (s : state) : bool * state :=
  let '(nx, ny) := child in
  if (nx =? c) || (ny =? c) then (true, s)
  else if (nx >? c) && (ny >? c) then (false, s)
  else
    let k := key nx ny in
    if bool_decide (k ∈ visited s) then (false, s)
    else (false, queue_push (nx, ny) (visited_add k s)).

(** The [for ... of] loop over the children, left as soon as a pass returns. *)
Fixpoint visit_children (c : Z) (children : list (Z * Z)) (s : state) : bool * state :=
  match children with
  | [] => (false, s)
  | child :: rest =>
      let '(found, s') := visit_child c child s in
      if found : bool then (true, s') else visit_children c rest s'
  end.

(** One round of [while (queue.length > 0)] (lines 73-157): either the
    function returns ([Done]) or the loop goes on ([Next]). *)
Inductive step_result : Type :=
| Done (r : bool) (s : state)
| Next (s : state).

(** The round when the cap is an integer below [2 ^ 53]: [iterations] is then
    exact and [iterations > maxIterations] is the test on integers.  The round
    for any number is [step_number] below. *)
Definition step (c maxIterations : Z) (s : state) : step_result :=
  match queue s with
  | [] => Done false s
  | (x, y) :: q =>
      let s := count_iteration s in
      if iterations s >? maxIterations then Done false s
      else
        let s := queue_shift (x, y) q s in
        let child1 := (x + y, y) in
        let child2 := (x, x + y) in
        match visit_children c [child1; child2] s with
        | (true, s) => Done true s
        | (false, s) => Next s
        end
  end.

(** The [while] loop: rounds are taken until one of them returns. *)
Fixpoint bfs_loop (fuel : nat) (c maxIterations : Z) (s : state)
  : outcome (bool * state) :=
  match fuel with
  | O => Diverge
  | S fuel' =>
      match step c maxIterations s with
      | Done r s' => Return (r, s')
      | Next s' => bfs_loop fuel' c maxIterations s'
      end
  end.

(** The search itself: the loop started on [init_state].  The cap lets at most
    [maxIterations] rounds pass and stops the one after, which is the fuel
    given here (lemma [bfs_loop_returns] shows that it is never used up). *)
Definition bfs (a b c maxIterations : Z) : outcome (bool * state) :=
  bfs_loop (S (Z.to_nat maxIterations)) c maxIterations (init_state a b).

(** The call with a cap that is an integer below [2 ^ 53], the default among
    them; up to such a cap [iterations], which counts up from [0] by ones, is
    exact.  The parameter is declared [maxIterations: number]: the call with
    any number is [canReachBruteForce_number] below, and
    [canReachBruteForce_number_integer] shows that this one is its value at
    an integer cap. *)
Definition canReachBruteForce (a b c maxIterations : Z) : outcome bool :=
  if (c =? a) || (c =? b) then mret true
  else if (c <? a) && (c <? b) then mret false
  else
    res ← bfs a b c maxIterations;
    mret res.1.

(** The default value of the fourth parameter. *)
Definition default_maxIterations : Z := 1000000.

(** *** The cap as a JavaScript number (line 24: [maxIterations: number])

    A number is a finite double, an infinity or [NaN].  Every finite double is
    a rational number; not every rational is a double, so that what is proved
    for all rationals covers more than all doubles. *)
Inductive number : Type :=
| Finite (q : Q)
| PosInfinity
| NegInfinity
| NaN.

(** [iterations] is a double as well.  Counting up from [0] by ones it is
    exact up to [2 ^ 53] and then stays there, [2 ^ 53 + 1] being rounded back
    to [2 ^ 53].  The field [iterations] of a state counts the executions of
    [iterations++]; this is the value the variable then holds. *)
Definition counter_value (n : Z) : Z := Z.min n (2 ^ 53).

(** [i > m] for an integer [i]: a comparison with [NaN] is [false]. *)
Definition greater_than (i : Z) (m : number) : bool :=
  match m with
  | Finite q => negb (Qle_bool (inject_Z i) q)
  | PosInfinity => false
  | NegInfinity => true
  | NaN => false
  end.

(** One round of the loop, the cap being any number. *)
Definition step_number (c : Z) (maxIterations : number) (s : state) : step_result :=
  match queue s with
  | [] => Done false s
  | (x, y) :: q =>
      let s := count_iteration s in
      if greater_than (counter_value (iterations s)) maxIterations then Done false s
      else
        let s := queue_shift (x, y) q s in
        let child1 := (x + y, y) in
        let child2 := (x, x + y) in
        match visit_children c [child1; child2] s with
        | (true, s) => Done true s
        | (false, s) => Next s
        end
  end.

(** The loop, followed for at most [fuel] rounds: [Diverge] says that it has
    not returned by then.  With [NaN] or [Infinity] for a cap no number of
    rounds need be enough. *)
Fixpoint bfs_loop_number (fuel : nat) (c : Z) (maxIterations : number) (s : state)
  : outcome (bool * state) :=
  match fuel with
  | O => Diverge
  | S fuel' =>
      match step_number c maxIterations s with
      | Done r s' => Return (r, s')
      | Next s' => bfs_loop_number fuel' c maxIterations s'
      end
  end.

(** [canReachBruteForce(a, b, c, maxIterations)] for any number
    [maxIterations], its loop followed for at most [fuel] rounds. *)
Definition canReachBruteForce_number (fuel : nat) (a b c : Z) (maxIterations : number)
  : outcome bool :=
  if (c =? a) || (c =? b) then mret true
  else if (c <? a) && (c <? b) then mret false
  else
    res ← bfs_loop_number fuel c maxIterations (init_state a b);
    mret res.1.

(** ** The test corpus (test.ts, lines 100-144)

    Every [test(a, b, c)] call of the harness, in order.  None passes the
    [skipTreeSearch] flag, so each triple is given to both engines. *)
Definition corpus : list (Z * Z * Z) :=
  [ (3, 5, 2); (10, 15, 5); (2, 5, 3); (2, 5, 4); (2, 3, 4); (2, 3, 6);
    (3, 5, 4); (3, 5, 6); (3, 5, 7);
    (10, 15, 25); (10, 15, 35); (10, 15, 55); (100, 150, 250); (100, 150, 350);
    (5, 7, 123); (5, 7, 1000); (5, 7, 5000); (11, 13, 2500); (17, 23, 3000);
    (3, 7, 10); (3, 7, 17); (3, 7, 73); (3, 7, 13);
    (3, 7, 12344) ].

(** The comparison [treeResult === mathResult] of [test], reached only when
    neither engine threw. *)
Definition engines_agree (t : Z * Z * Z) : Prop :=
  let '(a, b, c) := t in
  ∃ r : bool, canReach a b c = Return r ∧
              canReachBruteForce a b c default_maxIterations = Return r.

(** ** [solve] and [solveBruteForce] (math-solution.ts, lines 170-183;
    tree-search.ts, lines 173-186)

    What a call writes: [console.log] goes to standard output, [console.error]
    to standard error. *)

Inductive output : Type :=
| Stdout (line : string)
| Stderr (line : string).

(** [error instanceof Error ? error.message : error]: both kinds of error
    that the engines can throw are instances of [Error]. *)
Definition exn_message (e : exn) : string :=
  match e with
  | Error msg => msg
  | RangeError msg => msg
  end.

(** [try { ... } catch (error) { ... }] around one engine call: print the
    answer and return it, or print the message and return [false]. *)
Definition solve_with (engine : outcome bool) : outcome (list output * bool) :=
  match engine with
  | Return result => Return ([Stdout (if result then "YES" else "NO")], result)
  | Throw error => Return ([Stderr ("Error: " +:+ exn_message error)], false)
  | Diverge => Diverge
  end.

Definition solve (a b c : Z) : outcome (list output * bool) :=
  solve_with (canReach a b c).

Definition solveBruteForce (a b c : Z) : outcome (list output * bool) :=
  solve_with (canReachBruteForce a b c default_maxIterations).

(** ** [test] and the test script (test.ts, lines 19-20, 34-87, 100-156)

    The counters [passed] and [failed] and what is printed.  A printed line
    shows the time the call took; that part is left out, the rest of a line
    is kept as a [report]. *)

Inductive report : Type :=
| MathOk (t : Z * Z * Z) (yes : bool)            (* [OK] [math] ... [YES|NO] *)
| MathError (t : Z * Z * Z) (msg : string)       (* [ERROR] [math], message *)
| TreeOk (t : Z * Z * Z) (yes : bool)            (* [OK] [tree] ... [YES|NO] *)
| TreeFail (t : Z * Z * Z) (math tree : bool)    (* [FAIL] [tree], MISMATCH *)
| TreeError (t : Z * Z * Z) (msg : string)       (* [ERROR] [tree], message *)
| TreeSkipped (t : Z * Z * Z).                   (* - [tree] skipped *)

Record tally : Type := Tally {
  passed : Z;
  failed : Z;
  reports : list report;
}.

(** [passed++] with its line, and [failed++] with its line. *)
Definition pass (r : report) (t : tally) : tally :=
  {| passed := passed t + 1; failed := failed t; reports := reports t ++ [r] |}.

Definition fail (r : report) (t : tally) : tally :=
  {| passed := passed t; failed := failed t + 1; reports := reports t ++ [r] |}.

Definition note (r : report) (t : tally) : tally :=
  {| passed := passed t; failed := failed t; reports := reports t ++ [r] |}.

Definition test (a b c : Z) (skipTreeSearch : bool) (t : tally) : outcome tally :=
  match canReach a b c with
  | Diverge => Diverge
  | Throw error => Return (fail (MathError (a, b, c) (exn_message error)) t)
  | Return mathResult =>
      let t := pass (MathOk (a, b, c) mathResult) t in
      if negb skipTreeSearch then
        match canReachBruteForce a b c default_maxIterations with
        | Diverge => Diverge
        | Throw error => Return (fail (TreeError (a, b, c) (exn_message error)) t)
        | Return treeResult =>
            if Bool.eqb treeResult mathResult
            then Return (pass (TreeOk (a, b, c) treeResult) t)
            else Return (fail (TreeFail (a, b, c) mathResult treeResult) t)
        end
      else Return (note (TreeSkipped (a, b, c)) t)
  end.

(** A sequence of [test(a, b, c, skipTreeSearch)] calls. *)
Fixpoint run_tests (cases : list (Z * Z * Z * bool)) (t : tally) : outcome tally :=
  match cases with
  | [] => Return t
  | (a, b, c, skipTreeSearch) :: rest =>
      t' ← test a b c skipTreeSearch t;
      run_tests rest t'
  end.

(** The script: both counters start at zero, every triple of the corpus is
    tested with the search, and [process.exit(1)] is called when a test
    failed.  The second component is the exit code. *)
Definition test_script : outcome (tally * Z) :=
  t ← run_tests ((λ abc, (abc, false)) <$> corpus)
                {| passed := 0; failed := 0; reports := [] |};
  mret (t, if failed t >? 0 then 1 else 0).

(** * Part II: the vocabulary of the properties *)

(** ** Coprime representations *)

(** [n] carries a coprime representation of [c]: some [m ≥ 1] coprime to [n]
    has [c = m*a + n*b]. *)
Definition coprime_rep (a b c n : Z) : Prop :=
  ∃ m, 1 ≤ m ∧ c = m * a + n * b ∧ Z.gcd m n = 1.

(** The four tests of [witness_at] as one boolean. *)
Definition witness_test (a b c n : Z) : bool :=
  (c - n * b >? 0) && (Z.rem (c - n * b) a =? 0) &&
  (Z.quot (c - n * b) a >=? 1) && (Z.gcd (Z.quot (c - n * b) a) n =? 1).

(** Lines 129-164 of [canReach], with the quotient [maxN] already computed. *)
Definition coprime_search (a b c : Z) : outcome bool :=
  let maxN := Z.quot (c - a) b in
  let iterLimit := if maxN <? 10000 then maxN else 10000 in
  found ← search_window a b c 1 iterLimit;
  if found : bool then mret true
  else
    if c >=? a * b then
      let startN := if maxN >? 10000 then maxN - 10000 else 1 in
      found ← search_window a b c startN maxN;
      if found : bool then mret true else mret false
    else mret false.

(** ** Genuine reachability *)

(** Pairs obtained from [(a, b)] by finitely many steps [(x, y) ↦ (x + y, y)]
    and [(x, y) ↦ (x, x + y)]. *)
Inductive reach (a b : Z) : Z * Z → Prop :=
| reach_start : reach a b (a, b)
| reach_left x y : reach a b (x, y) → reach a b (x + y, y)
| reach_right x y : reach a b (x, y) → reach a b (x, x + y).

(** [c] is one of the generators or a coordinate of such a pair. *)
Definition reachable (a b c : Z) : Prop :=
  c = a ∨ c = b ∨ ∃ x y, reach a b (x, y) ∧ (x = c ∨ y = c).

(** ** States of a call and their invariants *)

(** The state a round ends in, whether the loop goes on or not. *)
Definition state_of (r : step_result) : state :=
  match r with Done _ s => s | Next s => s end.

(** The states at the loop head of every round of one call, and the state in
    which the call returns. *)
Inductive call_state (a b c maxIterations : Z) : state → Prop :=
| call_start : call_state a b c maxIterations (init_state a b)
| call_round s s' :
    call_state a b c maxIterations s → step c maxIterations s = Next s' →
    call_state a b c maxIterations s'
| call_return s r s' :
    call_state a b c maxIterations s → step c maxIterations s = Done r s' →
    call_state a b c maxIterations s'.

(** At the loop head, [iterations] counts the pairs dequeued so far and has
    not passed the cap. *)
Definition counted (maxIterations : Z) (s : state) : Prop :=
  Z.of_nat (length (shifted s)) = iterations s ∧
  0 ≤ iterations s ≤ Z.max 0 maxIterations.

(** [p] and [q] are the same unordered pair. *)
Definition same_unordered (p q : Z * Z) : Prop := p = q ∨ p = (q.2, q.1).

(** The visited set is exactly the set of keys of the pairs that were ever
    enqueued, and no two of these pairs have the same key. *)
Definition deduplicated (s : state) : Prop :=
  visited s = list_to_set (key_of <$> pushed s) ∧ NoDup (key_of <$> pushed s).

(** The state at the head of round [k] when [c] lies strictly between [a] and
    [b]: one queued pair, and only keys of earlier pairs of the same shape in
    the visited set. *)
Definition gap_chain (a b k : Z) (s : state) : Prop :=
  queue s = [(a, b + k * a)] ∧ iterations s = k ∧
  ∀ t, t ∈ visited s → ∃ j, 0 ≤ j ≤ k ∧ t = key a (b + j * a).

(** ** A faster evaluator of the search

    Appending to a list and adding to a [gset] by union cost time in the size
    of the queue and of the set.  To run the search on the larger test cases
    the queue is kept as a front list and a reversed back list, and the visited
    set as the domain of a [gmap] whose keys are the ordered pairs themselves
    instead of their renderings; [canReachBruteForce_fast_eq] shows that the
    answer is the same. *)

(** The two numbers of a key, smaller first, and the string they stand for. *)
Definition pair_key (nx ny : Z) : Z * Z := if nx <? ny then (nx, ny) else (ny, nx).

Definition key_text (k : Z * Z) : string :=
  bigint_toString k.1 +:+ "," +:+ bigint_toString k.2.

(** No character of [s] is a comma. *)
Fixpoint comma_free (s : string) : Prop :=
  match s with
  | EmptyString => True
  | String ch s' => ch ≠ ","%char ∧ comma_free s'
  end.

Fixpoint fast_children (c : Z) (children back : list (Z * Z)) (vis : gmap (Z * Z) ())
  : option (list (Z * Z) * gmap (Z * Z) ()) :=
  match children with
  | [] => Some (back, vis)
  | (nx, ny) :: rest =>
      if (nx =? c) || (ny =? c) then None
      else if (nx >? c) && (ny >? c) then fast_children c rest back vis
      else
        let k := pair_key nx ny in
        match vis !! k with
        | Some _ => fast_children c rest back vis
        | None => fast_children c rest ((nx, ny) :: back) (<[k := ()]> vis)
        end
  end.

Fixpoint fast_loop (fuel : nat) (c maxIterations : Z) (front back : list (Z * Z))
    (vis : gmap (Z * Z) ()) (it : Z) : outcome bool :=
  match fuel with
  | O => Diverge
  | S fuel' =>
      match front with
      | [] => Return false
      | (x, y) :: q =>
          if it + 1 >? maxIterations then Return false
          else
            match fast_children c [(x + y, y); (x, x + y)] back vis with
            | None => Return true
            | Some (back', vis') =>
                match q with
                | [] => fast_loop fuel' c maxIterations (reverse back') [] vis' (it + 1)
                | _ => fast_loop fuel' c maxIterations q back' vis' (it + 1)
                end
            end
      end
  end.

Definition canReachBruteForce_fast (a b c maxIterations : Z) : outcome bool :=
  if (c =? a) || (c =? b) then mret true
  else if (c <? a) && (c <? b) then mret false
  else fast_loop (S (Z.to_nat maxIterations)) c maxIterations
                 [(a, b)] [] {[pair_key a b := ()]} 0.

(** The fast state [(front, back, vis, it)] stands for the state [s]. *)
Definition represents (front back : list (Z * Z)) (vis : gmap (Z * Z) ()) (it : Z)
    (s : state) : Prop :=
  queue s = front ++ reverse back ∧ visited s = set_map key_text (dom vis) ∧
  iterations s = it ∧ (front = [] → back = []).

(** ** What makes a test count as passed *)

(** [canReach] returns, and the search, unless skipped, returns the same. *)
Definition case_passes (case : Z * Z * Z * bool) : Prop :=
  let '(a, b, c, skipTreeSearch) := case in
  ∃ r : bool, canReach a b c = Return r ∧
              (skipTreeSearch = true ∨
               canReachBruteForce a b c default_maxIterations = Return r).

(** The number of [passed++] a passing case performs. *)
Definition passes_of (case : Z * Z * Z * bool) : Z :=
  if case.2 then 1 else 2.

(** ** The search seen from its target *)

(** [c] is a coordinate of [p]. *)
Definition hits (c : Z) (p : Z * Z) : Prop := p.1 = c ∨ p.2 = c.

(** [c] is a coordinate of [p] or of a pair at most [k] steps below [p]. *)
Fixpoint within (c : Z) (k : nat) (p : Z * Z) : Prop :=
  hits c p ∨
  match k with
  | O => False
  | S k' => within c k' (p.1 + p.2, p.2) ∨ within c k' (p.1, p.1 + p.2)
  end.



(** * Part III: lemmas *)

Lemma bind_Return {A B : Type} (v : A) (k : A → outcome B) :
  Return v ≫= k = k v.
Proof. reflexivity. Qed.

(** ** [gcd] computes the greatest common divisor and terminates *)

Lemma gcd_loop_S (fuel : nat) (x y : Z) :
  gcd_loop (S fuel) x y =
  if negb (y =? 0) then r ← bigint_rem x y; gcd_loop fuel y r else Return x.
Proof. reflexivity. Qed.

Lemma bigint_rem_nonzero (x y : Z) : y ≠ 0 → bigint_rem x y = Return (Z.rem x y).
Proof. intros Hy. unfold bigint_rem. rewrite (proj2 (Z.eqb_neq y 0) Hy). reflexivity. Qed.

Lemma bigint_div_nonzero (x y : Z) : y ≠ 0 → bigint_div x y = Return (Z.quot x y).
Proof. intros Hy. unfold bigint_div. rewrite (proj2 (Z.eqb_neq y 0) Hy). reflexivity. Qed.

(** With the larger number first, the product of the two at least halves in
    every round, so [n + 1] rounds suffice below [2 ^ n]. *)
Lemma gcd_loop_spec (n : nat) :
  ∀ x y, 0 ≤ y ≤ x → x * y < 2 ^ Z.of_nat n →
         gcd_loop (S n) x y = Return (Z.gcd x y).
Proof.
  induction n as [|n IH]; intros x y Hxy Hlt.
  - assert (y = 0) as -> by nia.
    simpl. rewrite Z.gcd_0_r. f_equal. lia.
  - rewrite gcd_loop_S. destruct (Z.eqb_spec y 0) as [->|Hy]; cbn [negb].
    + rewrite Z.gcd_0_r. f_equal. lia.
    + rewrite bigint_rem_nonzero, bind_Return by done.
      assert (Hr : 0 ≤ Z.rem x y < y) by (apply Z.rem_bound_pos; lia).
      assert (Hq : 1 ≤ Z.quot x y).
      { apply Z.quot_le_lower_bound; lia. }
      pose proof (Z.quot_rem' x y) as Hdiv.
      rewrite IH.
      * f_equal. rewrite Z.rem_mod_nonneg by lia.
        rewrite (Z.gcd_comm y), Z.gcd_mod by lia. apply Z.gcd_comm.
      * lia.
      * rewrite Nat2Z.inj_succ, Z.pow_succ_r in Hlt by lia. nia.
Qed.

(** One more round puts the larger number first. *)
Lemma gcd_loop_any_order (n : nat) (x y : Z) :
  0 ≤ x → 0 ≤ y → x * y < 2 ^ Z.of_nat n →
  gcd_loop (S (S n)) x y = Return (Z.gcd x y).
Proof.
  intros Hx Hy Hlt. destruct (Z_le_gt_dec y x) as [Hle|Hgt].
  - apply (gcd_loop_spec (S n)); [lia|].
    rewrite Nat2Z.inj_succ, Z.pow_succ_r by lia. nia.
  - rewrite gcd_loop_S. destruct (Z.eqb_spec y 0) as [->|Hy0]; [lia|]. cbn [negb].
    rewrite bigint_rem_nonzero, bind_Return by done.
    rewrite Z.rem_small by lia.
    rewrite gcd_loop_spec by lia. f_equal. apply Z.gcd_comm.
Qed.

Lemma log2_product_bound (x y : Z) :
  0 ≤ x → 0 ≤ y → x * y < 2 ^ (Z.log2 x + Z.log2 y + 2).
Proof.
  intros Hx Hy.
  pose proof (Z.log2_nonneg x) as Hlx. pose proof (Z.log2_nonneg y) as Hly.
  assert (Hx2 : x < 2 ^ (Z.log2 x + 1)).
  { destruct (Z.eq_dec x 0) as [->|]; [reflexivity|].
    replace (Z.log2 x + 1) with (Z.succ (Z.log2 x)) by lia.
    apply Z.log2_spec. lia. }
  assert (Hy2 : y < 2 ^ (Z.log2 y + 1)).
  { destruct (Z.eq_dec y 0) as [->|]; [reflexivity|].
    replace (Z.log2 y + 1) with (Z.succ (Z.log2 y)) by lia.
    apply Z.log2_spec. lia. }
  replace (Z.log2 x + Z.log2 y + 2) with ((Z.log2 x + 1) + (Z.log2 y + 1)) by lia.
  rewrite Z.pow_add_r by lia. nia.
Qed.

(** [gcd] always returns, and what it returns is the mathematical gcd. *)
Lemma gcd_returns (x y : Z) : gcd x y = Return (Z.gcd x y).
Proof.
  unfold gcd, gcd_fuel.
  set (x' := if x <? 0 then - x else x).
  set (y' := if y <? 0 then - y else y).
  assert (Hx : x' = Z.abs x) by (subst x'; destruct (Z.ltb_spec x 0); lia).
  assert (Hy : y' = Z.abs y) by (subst y'; destruct (Z.ltb_spec y 0); lia).
  rewrite Hx, Hy, !Z.abs_idemp.
  rewrite gcd_loop_any_order.
  - f_equal. rewrite Z.gcd_abs_l, Z.gcd_abs_r. reflexivity.
  - lia.
  - lia.
  - rewrite Z2Nat.id.
    + apply log2_product_bound; lia.
    + pose proof (Z.log2_nonneg (Z.abs x)). pose proof (Z.log2_nonneg (Z.abs y)). lia.
Qed.

(** ** The coprime search of [canReach] *)

(** For [a ≠ 0] the loop body returns, with the value of [witness_test]. *)
Lemma witness_at_returns (a b c n : Z) :
  a ≠ 0 → witness_at a b c n = Return (witness_test a b c n).
Proof.
  intros Ha. unfold witness_at, witness_test.
  destruct (c - n * b >? 0); [|reflexivity].
  rewrite bigint_rem_nonzero, bind_Return by done.
  destruct (Z.rem (c - n * b) a =? 0); [|reflexivity].
  rewrite bigint_div_nonzero, bind_Return by done.
  destruct (Z.quot (c - n * b) a >=? 1); [|reflexivity].
  rewrite gcd_returns, bind_Return. reflexivity.
Qed.

(** The tests pass exactly when [n] carries a coprime representation. *)
Lemma witness_test_spec (a b c n : Z) :
  0 < a → witness_test a b c n = true ↔ coprime_rep a b c n.
Proof.
  intros Ha. unfold witness_test, coprime_rep.
  rewrite !andb_true_iff, Z.gtb_lt, Z.geb_le, !Z.eqb_eq. split.
  - intros [[[Hpos Hrem] Hm] Hg].
    exists (Z.quot (c - n * b) a). repeat split; [done| |done].
    pose proof (Z.quot_rem' (c - n * b) a) as Hdiv. lia.
  - intros (m & Hm & Hc & Hg).
    assert (Hr : c - n * b = m * a) by lia. rewrite Hr.
    rewrite Z.rem_mul, Z.quot_mul by lia.
    repeat split; [nia|done|done].
Qed.

Lemma for_n_S (fuel : nat) (a b c n hi : Z) :
  for_n (S fuel) a b c n hi =
  if n <=? hi then
    found ← witness_at a b c n;
    if found : bool then mret true else for_n fuel a b c (n + 1) hi
  else mret false.
Proof. reflexivity. Qed.

(** A [for] loop with enough fuel returns, and returns [true] exactly when
    some [k] of its range carries a coprime representation. *)
Lemma for_n_spec (a b c hi : Z) (fuel : nat) :
  0 < a →
  ∀ n, (Z.to_nat (hi - n + 1) < fuel)%nat →
       ∃ r : bool, for_n fuel a b c n hi = Return r ∧
                   (r = true ↔ ∃ k, n ≤ k ≤ hi ∧ coprime_rep a b c k).
Proof.
  intros Ha. induction fuel as [|fuel IH]; intros n Hfuel; [lia|].
  rewrite for_n_S. destruct (Z.leb_spec n hi) as [Hle|Hgt].
  - rewrite witness_at_returns, bind_Return by lia.
    destruct (witness_test a b c n) eqn:Ht.
    + exists true. split; [done|]. split; [|done]. intros _.
      exists n. split; [lia|]. by apply witness_test_spec.
    + destruct (IH (n + 1)) as (r & Hr & Hiff); [lia|].
      exists r. split; [done|]. rewrite Hiff. split.
      * intros (k & Hk & Hrep). exists k. split; [lia|done].
      * intros (k & Hk & Hrep). destruct (Z.eq_dec k n) as [->|Hne].
        -- apply witness_test_spec in Hrep; [congruence|done].
        -- exists k. split; [lia|done].
  - exists false. split; [done|]. split; [done|].
    intros (k & Hk & _). lia.
Qed.

Lemma search_window_spec (a b c lo hi : Z) :
  0 < a →
  ∃ r : bool, search_window a b c lo hi = Return r ∧
              (r = true ↔ ∃ n, lo ≤ n ≤ hi ∧ coprime_rep a b c n).
Proof. intros Ha. apply for_n_spec; [done|lia]. Qed.

(** On positive inputs [gcd] returns the gcd, which is not zero, and no
    division throws: [canReach] is a cascade of guards before the search. *)
Lemma canReach_positive (a b c : Z) :
  0 < a → 0 < b → 0 < c →
  canReach a b c =
  if (c =? a) || (c =? b) then Return true
  else if (c <? a) && (c <? b) then Return false
  else if negb (Z.rem c (Z.gcd a b) =? 0) then Return false
  else if (c >? (if a <? b then a else b)) && (c <? (if a >? b then a else b))
       then Return false
  else if c <? a + b then Return false
  else coprime_search a b c.
Proof.
  intros Ha Hb Hc. unfold canReach.
  destruct (Z.leb_spec a 0); [lia|]. destruct (Z.leb_spec b 0); [lia|].
  destruct (Z.leb_spec c 0); [lia|]. cbn [orb].
  destruct ((c =? a) || (c =? b)); [reflexivity|].
  destruct ((c <? a) && (c <? b)); [reflexivity|].
  rewrite gcd_returns, bind_Return.
  assert (Hg : Z.gcd a b ≠ 0) by (intros [? _]%Z.gcd_eq_0; lia).
  rewrite bigint_rem_nonzero, bind_Return by done.
  destruct (negb (Z.rem c (Z.gcd a b) =? 0)); [reflexivity|].
  destruct ((c >? (if a <? b then a else b)) && (c <? (if a >? b then a else b)));
    [reflexivity|].
  destruct (c <? a + b); [reflexivity|].
  rewrite bigint_div_nonzero, bind_Return by lia. reflexivity.
Qed.

(** The two windows of the search, exactly as the loops run them. *)
Lemma coprime_search_spec (a b c : Z) :
  0 < a →
  let maxN := Z.quot (c - a) b in
  ∃ r : bool,
    coprime_search a b c = Return r ∧
    (r = true ↔
       (∃ n, 1 ≤ n ≤ (if maxN <? 10000 then maxN else 10000) ∧ coprime_rep a b c n) ∨
       (a * b ≤ c ∧
        ∃ n, (if maxN >? 10000 then maxN - 10000 else 1) ≤ n ≤ maxN ∧
             coprime_rep a b c n)).
Proof.
  intros Ha maxN. unfold coprime_search. fold maxN.
  destruct (search_window_spec a b c 1 (if maxN <? 10000 then maxN else 10000) Ha)
    as (r1 & -> & H1).
  rewrite bind_Return. destruct r1.
  { exists true. split; [done|]. split; [|done]. intros _. left. by apply H1. }
  assert (N1 : ¬ ∃ n, 1 ≤ n ≤ (if maxN <? 10000 then maxN else 10000) ∧
                      coprime_rep a b c n).
  { intros H. apply H1 in H. discriminate. }
  destruct (Z.geb_spec c (a * b)) as [Hge|Hlt].
  - destruct (search_window_spec a b c (if maxN >? 10000 then maxN - 10000 else 1)
                maxN Ha) as (r2 & -> & H2).
    rewrite bind_Return. exists r2. split; [by destruct r2|].
    rewrite H2. split.
    + intros H. right. split; [lia|done].
    + intros [H|[_ H]]; [contradiction|done].
  - exists false. split; [done|]. split; [done|].
    intros [H|[H _]]; [contradiction|lia].
Qed.

(** On positive inputs [canReach] returns a boolean: neither loop runs out of
    fuel and no division throws. *)
Lemma canReach_returns (a b c : Z) :
  0 < a → 0 < b → 0 < c → ∃ r : bool, canReach a b c = Return r.
Proof.
  intros Ha Hb Hc. rewrite canReach_positive by done.
  repeat (match goal with |- context [if ?t then Return _ else _] => destruct t end;
          [eexists; reflexivity|]).
  destruct (coprime_search_spec a b c Ha) as (r & Hr & _). eauto.
Qed.

(** Every coprime representation has its [n] between [1] (given) and
    [maxN = (c - a) / b]. *)
Lemma coprime_rep_le_maxN (a b c n : Z) :
  0 < a → 0 < b → 1 ≤ n → coprime_rep a b c n → n ≤ Z.quot (c - a) b.
Proof.
  intros Ha Hb Hn (m & Hm & Hc & _).
  apply Z.quot_le_lower_bound; [lia|]. nia.
Qed.

(** A [true] answer is always backed by a coprime representation, or by
    [c] being one of the generators. *)
Lemma canReach_true_sound (a b c : Z) :
  canReach a b c = Return true →
  c = a ∨ c = b ∨ ∃ n, 1 ≤ n ∧ coprime_rep a b c n.
Proof.
  intros H.
  destruct (Z_le_gt_dec a 0) as [Ha|Ha].
  { unfold canReach in H. by rewrite (proj2 (Z.leb_le a 0) Ha) in H. }
  destruct (Z_le_gt_dec b 0) as [Hb|Hb].
  { unfold canReach in H. by rewrite (proj2 (Z.leb_le b 0) Hb), orb_true_r in H. }
  destruct (Z_le_gt_dec c 0) as [Hc|Hc].
  { unfold canReach in H. by rewrite (proj2 (Z.leb_le c 0) Hc), orb_true_r in H. }
  rewrite canReach_positive in H by lia.
  destruct ((c =? a) || (c =? b)) eqn:Hbase.
  { apply orb_true_iff in Hbase as [->%Z.eqb_eq| ->%Z.eqb_eq]; auto. }
  repeat (match type of H with
          | context [if ?t then Return false else _] => destruct t; [discriminate|]
          end).
  destruct (coprime_search_spec a b c) as (r & Hr & Hiff); [lia|].
  rewrite Hr in H. injection H as ->.
  destruct (proj1 Hiff eq_refl) as [(n & Hn & Hrep)|[_ (n & Hn & Hrep)]].
  - right. right. exists n. split; [lia|done].
  - right. right. exists n. split; [|done].
    destruct (Z.quot (c - a) b >? 10000) eqn:E; [|lia].
    apply Z.gtb_lt in E. lia.
Qed.

(** When the whole range [1..maxN] fits in the first window the search is
    exhaustive, so every coprime representation is found. *)
Lemma canReach_complete_small (a b c n : Z) :
  0 < a → 0 < b → 0 < c → Z.quot (c - a) b ≤ 10000 →
  1 ≤ n → coprime_rep a b c n → canReach a b c = Return true.
Proof.
  intros Ha Hb Hc Hsmall Hn Hrep.
  pose proof (coprime_rep_le_maxN a b c n Ha Hb Hn Hrep) as Hmax.
  destruct Hrep as (m & Hm & Hcmn & Hg).
  assert (Hsum : a + b ≤ c) by nia.
  rewrite canReach_positive by done.
  destruct (Z.eqb_spec c a); [lia|]. destruct (Z.eqb_spec c b); [lia|].
  cbn [orb]. destruct (Z.ltb_spec c a); [lia|]. cbn [andb].
  assert (Hdiv : Z.rem c (Z.gcd a b) = 0).
  { apply Z.rem_divide; [intros [? _]%Z.gcd_eq_0; lia|].
    rewrite Hcmn. apply Z.divide_add_r; apply Z.divide_mul_r.
    - apply Z.gcd_divide_l.
    - apply Z.gcd_divide_r. }
  rewrite Hdiv. cbn [Z.eqb negb].
  assert (Hgap : (c >? (if a <? b then a else b)) && (c <? (if a >? b then a else b))
                 = false).
  { apply andb_false_iff. right. apply Z.ltb_ge.
    destruct (a >? b); lia. }
  rewrite Hgap. destruct (Z.ltb_spec c (a + b)); [lia|].
  destruct (coprime_search_spec a b c Ha) as (r & -> & Hiff).
  f_equal. apply Hiff. left. exists n. split.
  - destruct (Z.ltb_spec (Z.quot (c - a) b) 10000); lia.
  - exists m. done.
Qed.

(** What the last part of [canReach] decides, in full: past the guards, the
    answer is [true] exactly when a coprime representation has its [n] among
    the first [10000] values of [1..maxN] or, for [c ≥ a*b], in
    [maxN - 10000 .. maxN] (from [1] when [maxN ≤ 10000]). *)
Lemma canReach_windows (a b c : Z) :
  0 < a → 0 < b → 0 < c → c ≠ a → c ≠ b → a + b ≤ c → (Z.gcd a b | c) →
  let maxN := (c - a) / b in
  ∃ r : bool,
    canReach a b c = Return r ∧
    (r = true ↔
       (∃ n, 1 ≤ n ≤ Z.min maxN 10000 ∧ coprime_rep a b c n) ∨
       (a * b ≤ c ∧
        ∃ n, Z.max 1 (if maxN >? 10000 then maxN - 10000 else 1) ≤ n ≤ maxN ∧
             coprime_rep a b c n)).
Proof.
  intros Ha Hb Hc Hca Hcb Hsum Hdiv maxN.
  rewrite canReach_positive by done.
  destruct (Z.eqb_spec c a); [done|]. destruct (Z.eqb_spec c b); [done|].
  cbn [orb]. destruct (Z.ltb_spec c a); [lia|]. cbn [andb].
  assert (Hrem : Z.rem c (Z.gcd a b) = 0).
  { apply Z.rem_divide; [intros [? _]%Z.gcd_eq_0; lia|done]. }
  rewrite Hrem. cbn [Z.eqb negb].
  assert (Hgap : (c >? (if a <? b then a else b)) && (c <? (if a >? b then a else b))
                 = false).
  { apply andb_false_iff. right. apply Z.ltb_ge. destruct (a >? b); lia. }
  rewrite Hgap. destruct (Z.ltb_spec c (a + b)); [lia|].
  destruct (coprime_search_spec a b c Ha) as (r & Hr & Hiff).
  exists r. split; [done|]. rewrite Hiff.
  assert (HmaxN : Z.quot (c - a) b = maxN).
  { subst maxN. apply Z.quot_div_nonneg; lia. }
  rewrite HmaxN.
  replace (if maxN <? 10000 then maxN else 10000) with (Z.min maxN 10000)
    by (destruct (Z.ltb_spec maxN 10000); lia).
  replace (Z.max 1 (if maxN >? 10000 then maxN - 10000 else 1))
    with (if maxN >? 10000 then maxN - 10000 else 1)
    by (destruct (Z.gtb_spec maxN 10000); lia).
  done.
Qed.

(** ** The search loop returns *)

Lemma bfs_loop_S (fuel : nat) (c maxIterations : Z) (s : state) :
  bfs_loop (S fuel) c maxIterations s =
  match step c maxIterations s with
  | Done r s' => Return (r, s')
  | Next s' => bfs_loop fuel c maxIterations s'
  end.
Proof. reflexivity. Qed.

Lemma visit_child_iterations (c : Z) (child : Z * Z) (s : state) :
  iterations (visit_child c child s).2 = iterations s.
Proof.
  unfold visit_child. destruct child as [nx ny].
  repeat (match goal with |- context [if ?t then _ else _] => destruct t end; try done).
Qed.

Lemma visit_children_iterations (c : Z) (children : list (Z * Z)) :
  ∀ s, iterations (visit_children c children s).2 = iterations s.
Proof.
  induction children as [|child rest IH]; intros s; [done|].
  cbn [visit_children].
  pose proof (visit_child_iterations c child s) as H.
  destruct (visit_child c child s) as [[] s']; cbn [snd] in *; [done|].
  by rewrite IH.
Qed.

(** A round after which the loop goes on has counted one more iteration and
    stayed within the cap. *)
Lemma step_Next_iterations (c maxIterations : Z) (s s' : state) :
  step c maxIterations s = Next s' →
  iterations s' = iterations s + 1 ∧ iterations s' ≤ maxIterations.
Proof.
  unfold step. destruct (queue s) as [|[x y] q]; [done|].
  cbn [count_iteration iterations].
  destruct (Z.gtb_spec (iterations s + 1) maxIterations) as [|Hle]; [done|].
  match goal with |- context [visit_children c ?l ?t] =>
    pose proof (visit_children_iterations c l t) as Hit;
    destruct (visit_children c l t) as [[] s3] end; [done|].
  intros [= <-]. cbn in Hit. lia.
Qed.

(** The loop returns within [maxIterations - iterations + 1] rounds. *)
Lemma bfs_loop_returns (c maxIterations : Z) (fuel : nat) :
  ∀ s, (Z.to_nat (maxIterations - iterations s) < fuel)%nat →
       ∃ r s', bfs_loop fuel c maxIterations s = Return (r, s').
Proof.
  induction fuel as [|fuel IH]; intros s Hfuel; [lia|].
  rewrite bfs_loop_S. destruct (step c maxIterations s) as [r s'|s'] eqn:Hstep.
  - eauto.
  - apply step_Next_iterations in Hstep. apply IH. lia.
Qed.

(** The search returns: its fuel is never used up. *)
Lemma bfs_returns (a b c maxIterations : Z) :
  ∃ r s', bfs a b c maxIterations = Return (r, s').
Proof. apply bfs_loop_returns. cbn. lia. Qed.

(** Invariant rule: a property of loop-head states that every round keeps
    holds at the loop head of the round in which the function returns. *)
Lemma bfs_loop_invariant (I : state → Prop) (c maxIterations : Z) :
  (∀ s s', I s → step c maxIterations s = Next s' → I s') →
  ∀ fuel s r s',
    I s → bfs_loop fuel c maxIterations s = Return (r, s') →
    ∃ s0, I s0 ∧ step c maxIterations s0 = Done r s'.
Proof.
  intros Hkeep. induction fuel as [|fuel IH]; intros s r s' HI Hrun; [done|].
  rewrite bfs_loop_S in Hrun.
  destruct (step c maxIterations s) as [r0 s0|s0] eqn:Hstep.
  - injection Hrun as -> ->. eauto.
  - eapply IH; [|done]. eauto.
Qed.

(** [canReachBruteForce] returns a boolean on all integers. *)
Lemma canReachBruteForce_returns (a b c maxIterations : Z) :
  ∃ r : bool, canReachBruteForce a b c maxIterations = Return r.
Proof.
  unfold canReachBruteForce.
  destruct ((c =? a) || (c =? b)); [by eexists|].
  destruct ((c <? a) && (c <? b)); [by eexists|].
  destruct (bfs_returns a b c maxIterations) as (r & s' & ->). by eexists.
Qed.

(** ** What one round does to the queue *)

Lemma visit_child_found (c : Z) (child : Z * Z) (s : state) :
  (visit_child c child s).1 = true → child.1 = c ∨ child.2 = c.
Proof.
  unfold visit_child. destruct child as [nx ny]. cbn [fst snd].
  destruct ((nx =? c) || (ny =? c)) eqn:E.
  - intros _. apply orb_true_iff in E as [?%Z.eqb_eq|?%Z.eqb_eq]; auto.
  - repeat (match goal with |- context [if ?t then _ else _] => destruct t end; try done).
Qed.

Lemma visit_child_queue (c : Z) (child : Z * Z) (s : state) :
  queue (visit_child c child s).2 = queue s ∨
  queue (visit_child c child s).2 = queue s ++ [child].
Proof.
  unfold visit_child. destruct child as [nx ny].
  repeat (match goal with |- context [if ?t then _ else _] => destruct t end; auto).
Qed.

Lemma visit_children_found (c : Z) (children : list (Z * Z)) :
  ∀ s, (visit_children c children s).1 = true →
       ∃ child, child ∈ children ∧ (child.1 = c ∨ child.2 = c).
Proof.
  induction children as [|child rest IH]; intros s; [done|].
  cbn [visit_children].
  pose proof (visit_child_found c child s) as Hf.
  destruct (visit_child c child s) as [[] s1]; cbn [fst] in *.
  - intros _. exists child. split; [left|auto].
  - intros (ch & Hin & Hc)%IH. exists ch. split; [by right|done].
Qed.

Lemma visit_children_queue (c : Z) (children : list (Z * Z)) :
  ∀ s p, p ∈ queue (visit_children c children s).2 → p ∈ queue s ∨ p ∈ children.
Proof.
  induction children as [|child rest IH]; intros s p; [by left|].
  cbn [visit_children].
  pose proof (visit_child_queue c child s) as Hq.
  destruct (visit_child c child s) as [[] s1]; cbn [snd] in *.
  - destruct Hq as [-> | ->]; [by left|].
    intros [?| ->%list_elem_of_singleton]%elem_of_app; [by left|right; left].
  - intros [Hin|Hin]%IH; [|right; by right].
    destruct Hq as [Hq|Hq]; rewrite Hq in Hin; [by left|].
    apply elem_of_app in Hin as [?| ->%list_elem_of_singleton]; [by left|right; left].
Qed.

(** After a round the queue holds pairs it held before or children of the
    pair that was dequeued. *)
Lemma step_Next_queue (c maxIterations : Z) (s s' : state) :
  step c maxIterations s = Next s' →
  ∃ x y q, queue s = (x, y) :: q ∧
           ∀ p, p ∈ queue s' → p ∈ q ∨ p = (x + y, y) ∨ p = (x, x + y).
Proof.
  unfold step. destruct (queue s) as [|[x y] q]; [done|].
  destruct (iterations (count_iteration s) >? maxIterations); [done|].
  match goal with |- context [visit_children c ?l ?t] =>
    pose proof (visit_children_queue c l t) as Hq;
    destruct (visit_children c l t) as [[] s3] end; [done|].
  intros [= <-]. exists x, y, q. split; [done|].
  intros p [Hp|Hp]%Hq; [by left|right].
  apply elem_of_cons in Hp as [->|Hp]; [by left|].
  apply list_elem_of_singleton in Hp as ->. by right.
Qed.

(** [true] is returned only for a coordinate of a child of the dequeued pair. *)
Lemma step_Done_true (c maxIterations : Z) (s s' : state) :
  step c maxIterations s = Done true s' →
  ∃ x y q, queue s = (x, y) :: q ∧ (x + y = c ∨ x = c ∨ y = c).
Proof.
  unfold step. destruct (queue s) as [|[x y] q]; [done|].
  destruct (iterations (count_iteration s) >? maxIterations); [done|].
  match goal with |- context [visit_children c ?l ?t] =>
    pose proof (visit_children_found c l t) as Hf;
    destruct (visit_children c l t) as [[] s3] end; [|done].
  intros _. exists x, y, q. split; [done|].
  destruct (Hf eq_refl) as (ch & Hin & Hc).
  apply elem_of_cons in Hin as [->|Hin]; [cbn in Hc; tauto|].
  apply list_elem_of_singleton in Hin as ->. cbn in Hc. tauto.
Qed.

(** ** A positive answer of the search is genuine *)

Lemma bfs_true_sound (a b c maxIterations : Z) (s' : state) :
  bfs a b c maxIterations = Return (true, s') →
  ∃ x y, reach a b (x, y) ∧ (x = c ∨ y = c).
Proof.
  intros Hrun.
  apply (bfs_loop_invariant (λ s, ∀ p, p ∈ queue s → reach a b p)) in Hrun.
  - destruct Hrun as (s0 & Hinv & (x & y & q & Hq & Hc)%step_Done_true).
    assert (Hxy : reach a b (x, y)) by (apply Hinv; rewrite Hq; left).
    destruct Hc as [Hc|[Hc|Hc]].
    + exists (x + y), y. split; [by constructor|by left].
    + exists x, y. split; [done|by left].
    + exists x, y. split; [done|by right].
  - intros s s1 Hinv (x & y & q & Hq & Hsub)%step_Next_queue p Hp.
    assert (Hxy : reach a b (x, y)) by (apply Hinv; rewrite Hq; left).
    destruct (Hsub p Hp) as [Hin|[Heq|Heq]]; [|subst p..].
    + apply Hinv. rewrite Hq. by right.
    + by constructor.
    + by constructor.
  - intros p ->%list_elem_of_singleton. constructor.
Qed.

Lemma canReachBruteForce_true_sound (a b c maxIterations : Z) :
  canReachBruteForce a b c maxIterations = Return true → reachable a b c.
Proof.
  unfold canReachBruteForce, reachable.
  destruct ((c =? a) || (c =? b)) eqn:Hbase.
  { intros _. apply orb_true_iff in Hbase as [?%Z.eqb_eq|?%Z.eqb_eq]; auto. }
  destruct ((c <? a) && (c <? b)); [done|].
  destruct (bfs_returns a b c maxIterations) as (r & s' & Hrun).
  rewrite Hrun, bind_Return. cbn. intros [= ->].
  right. right. by eapply bfs_true_sound.
Qed.

(** ** Reachable values have coprime coefficients

    The easy half of the Calkin-Wilf characterisation: both coordinates of a
    reachable pair are combinations of [a] and [b] whose coefficient matrix has
    determinant one. *)

Lemma reach_unimodular (a b : Z) (p : Z * Z) :
  reach a b p →
  ∃ m1 n1 m2 n2,
    0 ≤ m1 ∧ 0 ≤ n1 ∧ 0 ≤ m2 ∧ 0 ≤ n2 ∧
    p.1 = m1 * a + n1 * b ∧ p.2 = m2 * a + n2 * b ∧
    m1 * n2 - m2 * n1 = 1.
Proof.
  induction 1 as [|x y _ (m1 & n1 & m2 & n2 & H)|x y _ (m1 & n1 & m2 & n2 & H)];
    cbn [fst snd] in *.
  - exists 1, 0, 0, 1. lia.
  - exists (m1 + m2), (n1 + n2), m2, n2. lia.
  - exists m1, n1, (m1 + m2), (n1 + n2). lia.
Qed.

(** Hence a reachable value is a generator or has a coprime representation. *)
Lemma reachable_coprime_rep (a b c : Z) :
  reachable a b c → c = a ∨ c = b ∨ ∃ n, 1 ≤ n ∧ coprime_rep a b c n.
Proof.
  intros [->|[->|(x & y & Hreach & Hc)]]; [auto..|].
  apply reach_unimodular in Hreach
    as (m1 & n1 & m2 & n2 & Hm1 & Hn1 & Hm2 & Hn2 & Hx & Hy & Hdet).
  cbn [fst snd] in *. destruct Hc as [<-|<-].
  - destruct (Z.eq_dec n1 0) as [->|Hne].
    + left. destruct (Z.eq_mul_1_nonneg m1 n2) as [-> _]; lia.
    + right. right. exists n1. split; [lia|]. exists m1.
      split; [nia|]. split; [done|].
      apply Z.bezout_1_gcd. exists n2, (- m2). lia.
  - destruct (Z.eq_dec m2 0) as [->|Hne].
    + right. left. destruct (Z.eq_mul_1_nonneg m1 n2) as [_ ->]; lia.
    + right. right. exists n2. split; [nia|]. exists m2.
      split; [lia|]. split; [done|].
      apply Z.bezout_1_gcd. exists (- n1), m1. lia.
Qed.

(** Where the first window covers the whole range, the two engines cannot
    disagree on a negative answer of [canReach]. *)
Lemma agree_on_negative (a b c maxIterations : Z) :
  0 < a → 0 < b → 0 < c → Z.quot (c - a) b ≤ 10000 →
  canReach a b c = Return false →
  canReachBruteForce a b c maxIterations = Return false.
Proof.
  intros Ha Hb Hc Hsmall Hmath.
  destruct (canReachBruteForce_returns a b c maxIterations) as ([] & Htree); [|done].
  apply canReachBruteForce_true_sound, reachable_coprime_rep in Htree.
  destruct Htree as [->|[->|(n & Hn & Hrep)]].
  - rewrite canReach_positive, Z.eqb_refl in Hmath by done. done.
  - rewrite canReach_positive, Z.eqb_refl, orb_true_r in Hmath by done. done.
  - rewrite (canReach_complete_small a b c n) in Hmath by done. done.
Qed.

(** ** Keys are faithful: equal strings, equal pairs *)

Lemma bigint_toString_inj (x y : Z) : bigint_toString x = bigint_toString y → x = y.
Proof.
  unfold bigint_toString. intros H.
  apply (f_equal NilEmpty.int_of_string) in H. rewrite !NilEmpty.isi in H.
  injection H as H. apply (f_equal Z.of_int) in H. by rewrite !DecimalZ.of_to in H.
Qed.

Lemma string_of_uint_comma_free (d : Decimal.uint) :
  comma_free (NilEmpty.string_of_uint d).
Proof. induction d; cbn; auto. Qed.

Lemma bigint_toString_comma_free (z : Z) : comma_free (bigint_toString z).
Proof.
  unfold bigint_toString. destruct (Z.to_int z); cbn.
  - apply string_of_uint_comma_free.
  - split; [done|apply string_of_uint_comma_free].
Qed.

Lemma append_comma_inj (s1 s2 t1 t2 : string) :
  comma_free s1 → comma_free s2 →
  s1 +:+ "," +:+ t1 = s2 +:+ "," +:+ t2 → s1 = s2 ∧ t1 = t2.
Proof.
  revert s2. induction s1 as [|ch s1 IH]; intros [|ch' s2] H1 H2 Heq;
    simpl in *; simplify_eq.
  - done.
  - by destruct H2.
  - by destruct H1.
  - destruct H1 as [_ H1], H2 as [_ H2].
    destruct (IH s2 H1 H2) as [-> ->]; done.
Qed.

Lemma key_text_inj (k1 k2 : Z * Z) : key_text k1 = key_text k2 → k1 = k2.
Proof.
  destruct k1 as [x1 y1], k2 as [x2 y2]. unfold key_text. cbn [fst snd].
  intros [Hx Hy]%append_comma_inj; [|apply bigint_toString_comma_free..].
  by rewrite (bigint_toString_inj _ _ Hx), (bigint_toString_inj _ _ Hy).
Qed.

Lemma key_pair_key (nx ny : Z) : key nx ny = key_text (pair_key nx ny).
Proof. unfold key, key_text, pair_key. by destruct (nx <? ny). Qed.

(** ** The fast evaluator gives the same answer *)

(** The two loops over the children take the same decisions and keep the two
    states in correspondence. *)
Lemma fast_children_sim (c : Z) (children : list (Z * Z)) :
  ∀ back vis s,
    visited s = set_map key_text (dom vis) →
    match fast_children c children back vis, visit_children c children s with
    | None, (true, _) => True
    | Some (back', vis'), (false, s') =>
        visited s' = set_map key_text (dom vis') ∧ iterations s' = iterations s ∧
        ∃ added, queue s' = queue s ++ added ∧ reverse back' = reverse back ++ added
    | _, _ => False
    end.
Proof.
  induction children as [|[nx ny] rest IH]; intros back vis s Hvis.
  { cbn. repeat split; [done|]. exists []. by rewrite !app_nil_r. }
  cbn [fast_children visit_children visit_child].
  destruct ((nx =? c) || (ny =? c)); [done|].
  destruct ((nx >? c) && (ny >? c)); [by apply IH|].
  assert (Hmem : key nx ny ∈ visited s ↔ pair_key nx ny ∈ dom vis).
  { rewrite Hvis, key_pair_key, elem_of_map. split.
    - by intros (k & ->%key_text_inj & Hk).
    - intros Hk. eauto. }
  case_bool_decide as Hin.
  - apply Hmem, elem_of_dom in Hin as [[] ->]. by apply IH.
  - rewrite Hmem in Hin. apply not_elem_of_dom in Hin. rewrite Hin.
    set (s1 := queue_push (nx, ny) (visited_add (key nx ny) s)).
    assert (Hvis1 : visited s1 = set_map key_text (dom (<[pair_key nx ny := ()]> vis))).
    { subst s1. cbn.
      by rewrite Hvis, dom_insert_L, set_map_union_L, set_map_singleton_L, key_pair_key. }
    specialize (IH ((nx, ny) :: back) (<[pair_key nx ny := ()]> vis) s1 Hvis1).
    destruct (fast_children c rest _ _) as [[back' vis']|],
             (visit_children c rest s1) as [[] s']; try done.
    destruct IH as (Hv & Hi & added & Hq & Hb).
    split_and!; [done|done|]. exists ((nx, ny) :: added).
    rewrite Hq, Hb, reverse_cons. subst s1. cbn. by rewrite <- !app_assoc.
Qed.

Lemma fast_loop_sim (c maxIterations : Z) (fuel : nat) :
  ∀ front back vis it s,
    represents front back vis it s →
    fast_loop fuel c maxIterations front back vis it =
    (res ← bfs_loop fuel c maxIterations s; mret res.1).
Proof.
  induction fuel as [|fuel IH]; intros front back vis it s (Hq & Hv & Hi & Hfb); [done|].
  rewrite bfs_loop_S. cbn [fast_loop]. unfold step.
  destruct front as [|[x y] q].
  { rewrite Hq, (Hfb eq_refl). done. }
  rewrite Hq. cbn [app count_iteration iterations]. rewrite Hi.
  destruct (it + 1 >? maxIterations); [done|].
  set (s2 := queue_shift _ _ _).
  pose proof (fast_children_sim c [(x + y, y); (x, x + y)] back vis s2 Hv) as Hsim.
  destruct (fast_children c _ back vis) as [[back' vis']|],
           (visit_children c _ s2) as [[] s3]; try done.
  destruct Hsim as (Hv' & Hi' & added & Hq' & Hb').
  assert (Hs3 : queue s3 = q ++ reverse back').
  { rewrite Hq', Hb'. subst s2. cbn. by rewrite app_assoc. }
  destruct q as [|p q].
  - apply IH. unfold represents. split_and!; [|done| |done].
    + by rewrite Hs3, reverse_nil, app_nil_r.
    + rewrite Hi'. subst s2. cbn. by rewrite Hi.
  - apply IH. unfold represents. split_and!; [done|done| |done].
    rewrite Hi'. subst s2. cbn. by rewrite Hi.
Qed.

Lemma canReachBruteForce_fast_eq (a b c maxIterations : Z) :
  canReachBruteForce_fast a b c maxIterations = canReachBruteForce a b c maxIterations.
Proof.
  unfold canReachBruteForce_fast, canReachBruteForce.
  destruct ((c =? a) || (c =? b)); [done|].
  destruct ((c <? a) && (c <? b)); [done|].
  apply fast_loop_sim. unfold represents. split_and!; [done| |done|done].
  cbn. by rewrite dom_singleton_L, set_map_singleton_L, key_pair_key.
Qed.

(** ** The cap bounds the number of expanded states *)

Lemma visit_child_shifted (c : Z) (child : Z * Z) (s : state) :
  shifted (visit_child c child s).2 = shifted s.
Proof.
  unfold visit_child. destruct child as [nx ny].
  repeat (match goal with |- context [if ?t then _ else _] => destruct t end; try done).
Qed.

Lemma visit_children_shifted (c : Z) (children : list (Z * Z)) :
  ∀ s, shifted (visit_children c children s).2 = shifted s.
Proof.
  induction children as [|child rest IH]; intros s; [done|].
  cbn [visit_children].
  pose proof (visit_child_shifted c child s) as H.
  destruct (visit_child c child s) as [[] s']; cbn [snd] in *; [done|].
  by rewrite IH.
Qed.

Lemma step_Next_counted (c maxIterations : Z) (s s' : state) :
  counted maxIterations s → step c maxIterations s = Next s' →
  counted maxIterations s'.
Proof.
  intros [Hlen Hit]. unfold step. destruct (queue s) as [|[x y] q]; [done|].
  cbn [count_iteration iterations].
  destruct (Z.gtb_spec (iterations s + 1) maxIterations) as [|Hle]; [done|].
  match goal with |- context [visit_children c ?l ?t] =>
    pose proof (visit_children_iterations c l t) as Hi;
    pose proof (visit_children_shifted c l t) as Hs;
    destruct (visit_children c l t) as [[] s3] end; [done|].
  intros [= <-]. cbn in Hi, Hs. unfold counted.
  rewrite Hi, Hs, length_app. cbn. lia.
Qed.

Lemma step_Done_counted (c maxIterations : Z) (s s' : state) (r : bool) :
  counted maxIterations s → step c maxIterations s = Done r s' →
  Z.of_nat (length (shifted s')) ≤ Z.max 0 maxIterations.
Proof.
  intros [Hlen Hit]. unfold step. destruct (queue s) as [|[x y] q].
  { intros [= _ <-]. lia. }
  cbn [count_iteration iterations].
  destruct (Z.gtb_spec (iterations s + 1) maxIterations) as [|Hle].
  { intros [= _ <-]. cbn. lia. }
  match goal with |- context [visit_children c ?l ?t] =>
    pose proof (visit_children_shifted c l t) as Hs;
    destruct (visit_children c l t) as [[] s3] end; [|done].
  intros [= _ <-]. cbn in Hs. rewrite Hs, length_app. cbn. lia.
Qed.

(** When the search returns it has dequeued at most [maxIterations] pairs. *)
Lemma bfs_expands_at_most (a b c maxIterations : Z) :
  ∃ r s, bfs a b c maxIterations = Return (r, s) ∧
         Z.of_nat (length (shifted s)) ≤ Z.max 0 maxIterations.
Proof.
  destruct (bfs_returns a b c maxIterations) as (r & s & Hrun).
  exists r, s. split; [done|].
  apply (bfs_loop_invariant (counted maxIterations)) in Hrun
    as (s0 & Hcount & Hdone).
  - by eapply step_Done_counted.
  - intros. by eapply step_Next_counted.
  - split; cbn; lia.
Qed.

(** The cap check of lines 75-79. *)
Lemma step_cap (c maxIterations : Z) (s : state) :
  queue s ≠ [] → iterations s + 1 > maxIterations →
  step c maxIterations s = Done false (count_iteration s).
Proof.
  intros Hq Hcap. unfold step. destruct (queue s) as [|[x y] q]; [done|].
  cbn [count_iteration iterations].
  destruct (Z.gtb_spec (iterations s + 1) maxIterations); [done|lia].
Qed.

(** ** The visited set and the history of the queue *)

(** Two pairs have the same key exactly when they are the same unordered
    pair. *)
Lemma key_of_eq_iff (p q : Z * Z) : key_of p = key_of q ↔ same_unordered p q.
Proof.
  destruct p as [x y], q as [x' y']. unfold key_of, same_unordered. cbn [fst snd].
  rewrite !key_pair_key.
  transitivity (pair_key x y = pair_key x' y');
    [split; [apply key_text_inj|by intros ->]|].
  unfold pair_key.
  destruct (Z.ltb_spec x y) as [Hxy|Hxy], (Z.ltb_spec x' y') as [Hxy'|Hxy']; split;
    intros H;
    first [ injection H as ? ?; subst; first [by left | by right]
          | destruct H as [[= ? ?]|[= ? ?]]; subst; first [done | lia | f_equal; lia] ].
Qed.

(** One pass over a child either leaves the state alone or marks a key that
    was not yet visited and then pushes the child. *)
Lemma visit_child_cases (c : Z) (child : Z * Z) (s : state) :
  (visit_child c child s).2 = s ∨
  ((visit_child c child s).1 = false ∧ (key_of child ∉ visited s) ∧
   (visit_child c child s).2 = queue_push child (visited_add (key_of child) s)).
Proof.
  unfold visit_child, key_of. destruct child as [nx ny]. cbn [fst snd].
  destruct ((nx =? c) || (ny =? c)); [by left|].
  destruct ((nx >? c) && (ny >? c)); [by left|].
  case_bool_decide; [by left|by right].
Qed.

Lemma push_deduplicated (p : Z * Z) (s : state) :
  deduplicated s → key_of p ∉ visited s →
  deduplicated (queue_push p (visited_add (key_of p) s)).
Proof.
  intros [Hvis Hnd] Hnew. unfold deduplicated. cbn [queue_push visited_add visited pushed].
  rewrite fmap_app, list_to_set_app_L. cbn [fmap list_fmap]. split.
  - rewrite Hvis, list_to_set_singleton_L. apply (comm_L (∪)).
  - apply NoDup_app. split_and!; [done| |apply NoDup_singleton].
    intros k Hk ->%list_elem_of_singleton. apply Hnew. rewrite Hvis.
    by apply elem_of_list_to_set.
Qed.

Lemma visit_child_deduplicated (c : Z) (child : Z * Z) (s : state) :
  deduplicated s → deduplicated (visit_child c child s).2.
Proof.
  intros Hs. destruct (visit_child_cases c child s) as [->|(_ & Hnew & ->)]; [done|].
  by apply push_deduplicated.
Qed.

Lemma visit_child_grows (c : Z) (child : Z * Z) (s : state) :
  visited s ⊆ visited (visit_child c child s).2 ∧
  pushed s `prefix_of` pushed (visit_child c child s).2.
Proof.
  destruct (visit_child_cases c child s) as [->|(_ & _ & ->)]; [done|].
  cbn. split; [apply union_subseteq_r|]. by apply prefix_app_r.
Qed.

Lemma visit_children_deduplicated (c : Z) (children : list (Z * Z)) :
  ∀ s, deduplicated s → deduplicated (visit_children c children s).2.
Proof.
  induction children as [|child rest IH]; intros s Hs; [done|].
  cbn [visit_children].
  pose proof (visit_child_deduplicated c child s Hs) as H1.
  destruct (visit_child c child s) as [[] s1]; cbn [snd] in *; [done|].
  by apply IH.
Qed.

Lemma visit_children_grows (c : Z) (children : list (Z * Z)) :
  ∀ s, visited s ⊆ visited (visit_children c children s).2 ∧
       pushed s `prefix_of` pushed (visit_children c children s).2.
Proof.
  induction children as [|child rest IH]; intros s; [done|].
  cbn [visit_children].
  pose proof (visit_child_grows c child s) as [Hv Hp].
  destruct (visit_child c child s) as [[] s1]; cbn [snd] in *; [done|].
  destruct (IH s1) as [Hv' Hp']. split; by etrans.
Qed.

Lemma step_deduplicated (c maxIterations : Z) (s : state) :
  deduplicated s → deduplicated (state_of (step c maxIterations s)).
Proof.
  intros Hs. unfold step. destruct (queue s) as [|[x y] q]; [done|].
  destruct (iterations (count_iteration s) >? maxIterations); [done|].
  match goal with |- context [visit_children c ?l ?t] =>
    pose proof (visit_children_deduplicated c l t) as H;
    destruct (visit_children c l t) as [[] s3] end; by apply H.
Qed.

Lemma step_grows (c maxIterations : Z) (s : state) :
  visited s ⊆ visited (state_of (step c maxIterations s)) ∧
  pushed s `prefix_of` pushed (state_of (step c maxIterations s)).
Proof.
  unfold step. destruct (queue s) as [|[x y] q]; [done|].
  destruct (iterations (count_iteration s) >? maxIterations); [done|].
  match goal with |- context [visit_children c ?l ?t] =>
    pose proof (visit_children_grows c l t) as H;
    destruct (visit_children c l t) as [[] s3] end; apply H.
Qed.

Lemma init_deduplicated (a b : Z) : deduplicated (init_state a b).
Proof.
  split; cbn [init_state visited pushed fmap list_fmap].
  - by rewrite list_to_set_singleton_L.
  - apply NoDup_singleton.
Qed.

Lemma call_state_deduplicated (a b c maxIterations : Z) (s : state) :
  call_state a b c maxIterations s → deduplicated s.
Proof.
  induction 1 as [|s s' _ IH Hstep|s r s' _ IH Hstep].
  - apply init_deduplicated.
  - pose proof (step_deduplicated c maxIterations s IH) as H. by rewrite Hstep in H.
  - pose proof (step_deduplicated c maxIterations s IH) as H. by rewrite Hstep in H.
Qed.

(** No unordered pair occurs at two positions of the push history. *)
Lemma deduplicated_no_repeat (s : state) (i j : nat) (p q : Z * Z) :
  deduplicated s → pushed s !! i = Some p → pushed s !! j = Some q →
  same_unordered p q → i = j.
Proof.
  intros [_ Hnd] Hi Hj Hsame%key_of_eq_iff.
  eapply NoDup_lookup; [done| |].
  - rewrite list_lookup_fmap, Hi. done.
  - rewrite list_lookup_fmap, Hj. cbn. by rewrite Hsame.
Qed.

(** The state in which the search returns is a state of the call. *)
Lemma bfs_final_call_state (a b c maxIterations : Z) (r : bool) (s : state) :
  bfs a b c maxIterations = Return (r, s) → call_state a b c maxIterations s.
Proof.
  intros Hrun.
  apply (bfs_loop_invariant (call_state a b c maxIterations)) in Hrun
    as (s0 & Hs0 & Hdone).
  - by eapply call_return.
  - intros. by eapply call_round.
  - constructor.
Qed.

(** ** Where only the cap ends the search

    For [c] strictly between [a] and [b] the queue never runs empty: round
    [k] holds the single pair [(a, b + k*a)], whose second child is always
    new.  The search then ends at the cap check. *)

Lemma gap_round (a b c maxIterations k : Z) (s : state) :
  0 < a → a < c → c < b → 0 ≤ k → k + 1 ≤ maxIterations →
  gap_chain a b k s →
  ∃ s', step c maxIterations s = Next s' ∧ gap_chain a b (k + 1) s'.
Proof.
  intros Ha Hac Hcb Hk Hcap (Hq & Hi & Hv).
  unfold step. rewrite Hq. cbn [count_iteration iterations]. rewrite Hi.
  destruct (Z.gtb_spec (k + 1) maxIterations); [lia|].
  cbn [visit_children visit_child].
  assert (Hka : 0 ≤ k * a) by nia.
  destruct (Z.eqb_spec (a + (b + k * a)) c); [lia|].
  destruct (Z.eqb_spec (b + k * a) c); [lia|]. cbn [orb].
  destruct (Z.gtb_spec (a + (b + k * a)) c); [|lia].
  destruct (Z.gtb_spec (b + k * a) c); [|lia]. cbn [andb].
  destruct (Z.eqb_spec a c); [lia|]. cbn [orb].
  destruct (Z.gtb_spec a c); [lia|]. cbn [andb].
  case_bool_decide as Hin.
  - exfalso. cbn in Hin. apply Hv in Hin as (j & Hj & Heq).
    apply (key_of_eq_iff (a, a + (b + k * a)) (a, b + j * a)) in Heq.
    destruct Heq as [[= Heq]|[= Heq _]]; nia.
  - eexists. split; [reflexivity|]. split_and!.
    + cbn. do 2 f_equal. lia.
    + cbn. lia.
    + cbn. intros t [->%elem_of_singleton|Ht]%elem_of_union.
      * exists (k + 1). split; [lia|]. f_equal. lia.
      * apply Hv in Ht as (j & Hj & ->). exists j. split; [lia|done].
Qed.

Lemma gap_run (a b c maxIterations : Z) (n : nat) :
  0 < a → a < c → c < b →
  ∀ k s, 0 ≤ k → k + Z.of_nat n = maxIterations → gap_chain a b k s →
         ∃ s', bfs_loop (S n) c maxIterations s = Return (false, s') ∧
               iterations s' = maxIterations + 1 ∧ queue s' ≠ [].
Proof.
  intros Ha Hac Hcb. induction n as [|n IH]; intros k s Hk Hn Hchain.
  - rewrite bfs_loop_S, step_cap.
    + exists (count_iteration s). destruct Hchain as (Hq & Hi & _).
      split_and!; [done|cbn; lia|cbn; by rewrite Hq].
    + destruct Hchain as (Hq & _). by rewrite Hq.
    + destruct Hchain as (_ & Hi & _). lia.
  - destruct (gap_round a b c maxIterations k s) as (s' & Hstep & Hchain');
      [lia..|done|].
    rewrite bfs_loop_S, Hstep. apply (IH (k + 1)); [lia|lia|done].
Qed.

(** For [a < c < b] the search returns [false] at the cap check of round
    [maxIterations + 1], with a pair still waiting in the queue.  This is the
    case of the corpus triples [(2, 5, 3)], [(2, 5, 4)] and [(3, 5, 4)]. *)
Lemma gap_search_ends_at_cap (a b c maxIterations : Z) :
  0 < a → a < c → c < b → 0 ≤ maxIterations →
  ∃ s, bfs a b c maxIterations = Return (false, s) ∧
       iterations s = maxIterations + 1 ∧ queue s ≠ [].
Proof.
  intros Ha Hac Hcb Hmax. unfold bfs.
  apply (gap_run a b c maxIterations (Z.to_nat maxIterations) Ha Hac Hcb 0);
    [lia|lia|].
  split_and!.
  - cbn. do 2 f_equal. lia.
  - done.
  - cbn. intros t ->%elem_of_singleton. exists 0. split; [lia|]. f_equal. lia.
Qed.

(** ** The cap as a number

    [iterations > maxIterations] with a finite cap below [2 ^ 53] is the
    integer test against the floor of the cap, so that the call with such a
    cap is the call with an integer cap studied above.  With [NaN],
    [Infinity] or a finite cap of [2 ^ 53] or more the test is never true. *)

Lemma bfs_loop_number_S (fuel : nat) (c : Z) (maxIterations : number) (s : state) :
  bfs_loop_number (S fuel) c maxIterations s =
  match step_number c maxIterations s with
  | Done r s' => Return (r, s')
  | Next s' => bfs_loop_number fuel c maxIterations s'
  end.
Proof. reflexivity. Qed.

Lemma greater_than_finite (n : Z) (q : Q) :
  Qfloor q < 2 ^ 53 →
  greater_than (counter_value n) (Finite q) = (n >? Qfloor q).
Proof.
  intros Hq. unfold greater_than, counter_value.
  destruct (Z.gtb_spec n (Qfloor q)) as [Hgt|Hle].
  - apply negb_true_iff. destruct (Qle_bool _ q) eqn:E; [|done]. exfalso.
    apply Qle_bool_iff in E.
    assert (H : (inject_Z (Z.min n (2 ^ 53)) < inject_Z (Qfloor q + 1))%Q)
      by (eapply Qle_lt_trans; [exact E|apply Qlt_floor]).
    rewrite <- Zlt_Qlt in H. lia.
  - apply negb_false_iff, Qle_bool_iff.
    rewrite Z.min_l by lia.
    eapply Qle_trans; [|apply Qfloor_le]. by rewrite <- Zle_Qle.
Qed.

Lemma greater_than_never (n : Z) (q : Q) :
  2 ^ 53 ≤ Qfloor q → greater_than (counter_value n) (Finite q) = false.
Proof.
  intros Hq. unfold greater_than, counter_value.
  apply negb_false_iff, Qle_bool_iff.
  eapply Qle_trans; [|apply Qfloor_le]. rewrite <- Zle_Qle. lia.
Qed.

Lemma step_number_finite (c : Z) (q : Q) (s : state) :
  Qfloor q < 2 ^ 53 → step_number c (Finite q) s = step c (Qfloor q) s.
Proof.
  intros Hq. unfold step_number, step. destruct (queue s) as [|[x y] t]; [done|].
  by rewrite greater_than_finite.
Qed.

Lemma bfs_loop_number_finite (c : Z) (q : Q) (fuel : nat) :
  Qfloor q < 2 ^ 53 →
  ∀ s, bfs_loop_number fuel c (Finite q) s = bfs_loop fuel c (Qfloor q) s.
Proof.
  intros Hq. induction fuel as [|fuel IH]; intros s; [done|].
  rewrite bfs_loop_number_S, bfs_loop_S, step_number_finite by done.
  destruct (step c (Qfloor q) s); [done|apply IH].
Qed.

(** The call with a finite cap below [2 ^ 53] is the call with the floor of
    the cap, and returns within [floor + 1] rounds. *)
Lemma canReachBruteForce_number_floor (a b c : Z) (q : Q) :
  Qfloor q < 2 ^ 53 →
  canReachBruteForce_number (S (Z.to_nat (Qfloor q))) a b c (Finite q) =
  canReachBruteForce a b c (Qfloor q).
Proof.
  intros Hq. unfold canReachBruteForce_number, canReachBruteForce, bfs.
  by rewrite bfs_loop_number_finite.
Qed.

(** [canReachBruteForce] is [canReachBruteForce_number] at an integer cap. *)
Lemma canReachBruteForce_number_integer (a b c maxIterations : Z) :
  maxIterations < 2 ^ 53 →
  canReachBruteForce_number (S (Z.to_nat maxIterations)) a b c
    (Finite (inject_Z maxIterations)) =
  canReachBruteForce a b c maxIterations.
Proof.
  intros Hm.
  pose proof (canReachBruteForce_number_floor a b c (inject_Z maxIterations)) as H.
  rewrite Qfloor_Z in H. by apply H.
Qed.





(** *** The state in which the loop returns *)

(** The round in which the loop returns: the count is the number of dequeued
    pairs, plus one when it has passed the cap; [false] comes from an empty
    queue or from a count past the cap, [true] from a child of the pair
    dequeued last. *)
Lemma step_Done_account (c m : Z) (s0 s : state) (r : bool) :
  counted m s0 → iterations s0 ≤ m ∨ queue s0 ≠ [] →
  step c m s0 = Done r s →
  iterations s = Z.of_nat (length (shifted s)) + (if iterations s >? m then 1 else 0) ∧
  ((iterations s >? m) = true → r = false) ∧
  (r = false → queue s = [] ∨ (iterations s >? m) = true) ∧
  (r = true → ∃ x y, last (shifted s) = Some (x, y) ∧ (x + y = c ∨ x = c ∨ y = c)).
Proof.
  intros [Hlen Hit] Hhead. unfold step. destruct (queue s0) as [|[x y] t] eqn:Hq.
  { intros [= <- <-]. destruct Hhead as [Hle|]; [|done].
    destruct (Z.gtb_spec (iterations s0) m); [lia|].
    split_and!; [lia|done|by left|done]. }
  cbn [count_iteration iterations].
  destruct (Z.gtb_spec (iterations s0 + 1) m) as [Hgt|Hle].
  { intros [= <- <-]. cbn.
    destruct (Z.gtb_spec (iterations s0 + 1) m); [|lia].
    split_and!; [lia|done|by right|done]. }
  match goal with |- context [visit_children c ?l ?u] =>
    pose proof (visit_children_shifted c l u) as Hs;
    pose proof (visit_children_iterations c l u) as Hi;
    pose proof (visit_children_found c l u) as Hf;
    destruct (visit_children c l u) as [[] s3] end; [|done].
  intros [= <- <-]. cbn in Hs, Hi. rewrite Hi, Hs, length_app.
  destruct (Z.gtb_spec (iterations s0 + 1) m); [lia|].
  split_and!; [cbn; lia|done|done|].
  intros _. exists x, y. split; [apply last_snoc|].
  destruct (Hf eq_refl) as (ch & Hin & Hc).
  apply elem_of_cons in Hin as [->|Hin]; [cbn in Hc; tauto|].
  apply list_elem_of_singleton in Hin as ->. cbn in Hc. tauto.
Qed.

Lemma bfs_loop_account (a b c m : Z) (fuel : nat) (r : bool) (s : state) :
  bfs_loop fuel c m (init_state a b) = Return (r, s) →
  Z.of_nat (length (shifted s)) ≤ Z.max 0 m ∧
  iterations s = Z.of_nat (length (shifted s)) + (if iterations s >? m then 1 else 0) ∧
  ((iterations s >? m) = true → r = false) ∧
  (r = false → queue s = [] ∨ (iterations s >? m) = true) ∧
  (r = true → ∃ x y, last (shifted s) = Some (x, y) ∧ (x + y = c ∨ x = c ∨ y = c)).
Proof.
  intros Hrun.
  apply (bfs_loop_invariant
           (λ s, counted m s ∧ (iterations s ≤ m ∨ queue s ≠ []))) in Hrun
    as (s0 & [Hcount Hhead] & Hdone).
  - split; [by eapply step_Done_counted|by eapply step_Done_account].
  - intros s1 s2 [Hcount _] Hnext. split; [by eapply step_Next_counted|].
    left. by apply step_Next_iterations in Hnext as [_ ?].
  - split; [split; cbn; lia|by right].
Qed.

(** *** A cap that is never exceeded *)

Lemma gap_chain_init (a b : Z) : gap_chain a b 0 (init_state a b).
Proof.
  split_and!.
  - cbn. do 2 f_equal. lia.
  - done.
  - cbn. intros t ->%elem_of_singleton. exists 0. split; [lia|]. f_equal. lia.
Qed.

Lemma gap_number_round (a b c k : Z) (maxIterations : number) (s : state) :
  0 < a → a < c → c < b → 0 ≤ k →
  greater_than (counter_value (k + 1)) maxIterations = false →
  gap_chain a b k s →
  ∃ s', step_number c maxIterations s = Next s' ∧ gap_chain a b (k + 1) s'.
Proof.
  intros Ha Hac Hcb Hk Hcap Hchain.
  destruct (gap_round a b c (k + 1) k s) as (s' & Hstep & Hchain');
    [lia..|done|].
  exists s'. split; [|done]. rewrite <- Hstep.
  destruct Hchain as (Hq & Hi & _).
  unfold step_number, step. rewrite Hq. cbn [count_iteration iterations].
  rewrite Hi, Hcap. by destruct (Z.gtb_spec (k + 1) (k + 1)); [lia|].
Qed.

(** For [a < c < b] and a cap that is never exceeded, the loop has not
    returned after any number of rounds. *)
Lemma gap_number_never_returns (a b c : Z) (maxIterations : number) :
  0 < a → a < c → c < b →
  (∀ n, greater_than (counter_value n) maxIterations = false) →
  ∀ fuel, canReachBruteForce_number fuel a b c maxIterations = Diverge.
Proof.
  intros Ha Hac Hcb Hcap fuel. unfold canReachBruteForce_number.
  destruct (Z.eqb_spec c a); [lia|]. destruct (Z.eqb_spec c b); [lia|].
  destruct (Z.ltb_spec c a); [lia|]. cbn [orb andb].
  enough (Hloop : ∀ k s, 0 ≤ k → gap_chain a b k s →
                         bfs_loop_number fuel c maxIterations s = Diverge)
    by (by rewrite (Hloop 0 (init_state a b)); [|lia|apply gap_chain_init]).
  induction fuel as [|fuel IH]; intros k s Hk Hchain; [done|].
  destruct (gap_number_round a b c k maxIterations s) as (s' & Hstep & Hchain');
    [lia..|apply Hcap|done|].
  rewrite bfs_loop_number_S, Hstep. apply (IH (k + 1)); [lia|done].
Qed.

(** * Part IV: the properties C1 to C10 *)

(** One triple of the corpus: a negative answer of [canReach] is settled by
    [agree_on_negative], a positive one by running both engines. *)
Ltac agree_negative :=
  exists false; split;
  [ vm_compute; reflexivity
  | apply agree_on_negative;
    [ lia | lia | lia | by vm_compute | vm_compute; reflexivity ] ].

Ltac agree_positive :=
  exists true; split;
  [ vm_compute; reflexivity
  | rewrite <- canReachBruteForce_fast_eq; vm_compute; reflexivity ].

(** C1 (agreement of the two engines): on every triple of the harness's test
    corpus, all of them positive, [canReach] and [canReachBruteForce] (with its
    default cap of 1,000,000 iterations) return the same boolean. *)
Theorem C1_engines_agree_on_corpus :
  Forall (λ t, 0 < t.1.1 ∧ 0 < t.1.2 ∧ 0 < t.2) corpus ∧
  Forall engines_agree corpus.
Proof.
  split.
  - unfold corpus. repeat (apply List.Forall_cons; [cbn; lia|]). apply List.Forall_nil.
  - unfold corpus.
    repeat (apply List.Forall_cons;
            [unfold engines_agree; first [agree_negative | agree_positive]|]).
    apply List.Forall_nil.
Qed.

(** C2 (bounded dual-window search): past the guards, [canReach] should
    answer [true] exactly when a coprime representation has its [n] among the
    first 10,000 or, for [c ≥ a*b], the last 10,000 values of [1..maxN].  The
    second loop of the code runs over 10,001 values instead.  For
    [(a, b, c) = (20001, 2, 100008)] the range is [1..40003]; no coprime
    representation has its [n] among the first 10,000 or the last 10,000
    values of it, yet [canReach] answers [true], because the second loop
    starts at [maxN - 10000 = 30003], the 10,001st value from the top, where
    [100008 = 2*20001 + 30003*2]. *)
Theorem C2_second_window_off_by_one :
  let '(a, b, c) := (20001, 2, 100008) in
  let maxN := (c - a) / b in
  (0 < a ∧ 0 < b ∧ 0 < c ∧ c ≠ a ∧ c ≠ b ∧ a + b ≤ c ∧ (Z.gcd a b | c) ∧ a * b ≤ c) ∧
  maxN = 40003 ∧
  canReach a b c = Return true ∧
  coprime_rep a b c (maxN - 10000) ∧
  ¬ (∃ n, (1 ≤ n ≤ Z.min maxN 10000 ∨ Z.max 1 (maxN - 9999) ≤ n ≤ maxN) ∧
          coprime_rep a b c n).
Proof.
  cbn zeta. split_and!; try lia.
  - exists 100008. by vm_compute.
  - reflexivity.
  - vm_compute. reflexivity.
  - exists 2. split_and!; [lia|reflexivity|reflexivity].
  - change ((100008 - 20001) / 2) with 40003.
    change (Z.min 40003 10000) with 10000.
    change (Z.max 1 (40003 - 9999)) with 30004.
    destruct (search_window_spec 20001 2 100008 1 10000) as (r1 & H1 & Hiff1); [lia|].
    destruct (search_window_spec 20001 2 100008 30004 40003) as (r2 & H2 & Hiff2); [lia|].
    assert (E1 : search_window 20001 2 100008 1 10000 = Return false)
      by (vm_compute; reflexivity).
    assert (E2 : search_window 20001 2 100008 30004 40003 = Return false)
      by (vm_compute; reflexivity).
    rewrite E1 in H1. rewrite E2 in H2.
    injection H1 as <-. injection H2 as <-.
    intros (n & [Hn|Hn] & Hrep).
    + assert (false = true) by (apply Hiff1; eauto). discriminate.
    + assert (false = true) by (apply Hiff2; eauto). discriminate.
Qed.

(** C3 (divisibility necessity): for positive [a], [b], [c], when [c] is not
    a multiple of the value [g] that [gcd(a, b)] returns, [canReach] returns
    [false]. *)
Theorem C3_divisibility_necessity (a b c g : Z) :
  0 < a → 0 < b → 0 < c →
  gcd a b = Return g → c mod g ≠ 0 →
  canReach a b c = Return false.
Proof.
  intros Ha Hb Hc Hg Hmod. rewrite gcd_returns in Hg. injection Hg as <-.
  assert (Hgpos : 0 < Z.gcd a b).
  { pose proof (Z.gcd_nonneg a b).
    assert (Z.gcd a b ≠ 0) by (intros [? _]%Z.gcd_eq_0; lia). lia. }
  rewrite canReach_positive by done.
  destruct (Z.eqb_spec c a) as [->|_].
  { exfalso. apply Hmod. apply Z.mod_divide; [lia|apply Z.gcd_divide_l]. }
  destruct (Z.eqb_spec c b) as [->|_].
  { exfalso. apply Hmod. apply Z.mod_divide; [lia|apply Z.gcd_divide_r]. }
  cbn [orb]. destruct ((c <? a) && (c <? b)); [done|].
  rewrite Z.rem_mod_nonneg by lia.
  by rewrite (proj2 (Z.eqb_neq _ 0) Hmod).
Qed.

Lemma C3_divisibility_necessity_witness : canReach 4 6 9 = Return false.
Proof.
  apply (C3_divisibility_necessity 4 6 9 2); [lia|lia|lia|reflexivity|].
  vm_compute. discriminate.
Defined.

(** C4 (nothing below [a + b] but the generators): for positive [a], [b],
    [c] with [c ≠ a], [c ≠ b] and [c < a + b], [canReach] returns [false]; in
    particular when [c < min(a, b)] and when [min(a, b) < c < max(a, b)]. *)
Theorem C4_below_sum_unreachable (a b c : Z) :
  0 < a → 0 < b → 0 < c →
  (c ≠ a → c ≠ b → c < a + b → canReach a b c = Return false) ∧
  (c < Z.min a b → canReach a b c = Return false) ∧
  (Z.min a b < c < Z.max a b → canReach a b c = Return false).
Proof.
  intros Ha Hb Hc.
  assert (Hmain : c ≠ a → c ≠ b → c < a + b → canReach a b c = Return false).
  { intros Hca Hcb Hlt. rewrite canReach_positive by done.
    destruct (Z.eqb_spec c a); [done|]. destruct (Z.eqb_spec c b); [done|].
    cbn [orb]. rewrite (proj2 (Z.ltb_lt c (a + b)) Hlt).
    repeat (match goal with |- context [if ?t then Return false else _] =>
              destruct t end; try done). }
  split_and!; [done| |]; intros H; apply Hmain; lia.
Qed.

Lemma C4_below_sum_unreachable_witness :
  canReach 3 5 7 = Return false ∧ canReach 3 5 2 = Return false ∧
  canReach 2 5 3 = Return false.
Proof.
  split_and!.
  - apply (proj1 (C4_below_sum_unreachable 3 5 7 ltac:(lia) ltac:(lia) ltac:(lia))); lia.
  - apply (proj1 (proj2 (C4_below_sum_unreachable 3 5 2
                           ltac:(lia) ltac:(lia) ltac:(lia)))); lia.
  - apply (proj2 (proj2 (C4_below_sum_unreachable 2 5 3
                           ltac:(lia) ltac:(lia) ltac:(lia)))); lia.
Defined.

(** C5 (concrete scenarios): [canReach(4, 6, 20)] is [false], the one
    representation [20 = m*4 + n*6] with [m, n ≥ 1] being [m = n = 2], which is
    not coprime; and [canReach(1, 2, 12345678901234567890123456789)], a value
    beyond 64 bits, is [true]. *)
Theorem C5_concrete_scenarios :
  canReach 4 6 20 = Return false ∧
  (∀ m n, 1 ≤ m → 1 ≤ n → 20 = m * 4 + n * 6 → m = 2 ∧ n = 2) ∧
  Z.gcd 2 2 ≠ 1 ∧
  2 ^ 64 < 12345678901234567890123456789 ∧
  canReach 1 2 12345678901234567890123456789 = Return true.
Proof.
  split_and!.
  - vm_compute. reflexivity.
  - intros m n Hm Hn H. lia.
  - by vm_compute.
  - by vm_compute.
  - vm_compute. reflexivity.
Qed.

(** C6 (invalid input): on integer inputs [canReach] throws exactly when one of
    [a], [b], [c] is [≤ 0], and what it throws then is the invalid-input error;
    on three positive inputs it returns a boolean. *)
Theorem C6_invalid_input_iff (a b c : Z) :
  ((∃ e, canReach a b c = Throw e) ↔ a ≤ 0 ∨ b ≤ 0 ∨ c ≤ 0) ∧
  (a ≤ 0 ∨ b ≤ 0 ∨ c ≤ 0 → canReach a b c = Throw invalid_input) ∧
  (0 < a → 0 < b → 0 < c → ∃ r : bool, canReach a b c = Return r).
Proof.
  assert (Hthrow : a ≤ 0 ∨ b ≤ 0 ∨ c ≤ 0 → canReach a b c = Throw invalid_input).
  { intros H. unfold canReach.
    destruct (Z.leb_spec a 0), (Z.leb_spec b 0), (Z.leb_spec c 0); try done. lia. }
  split_and!; [split| |].
  - intros [e He].
    destruct (Z_le_gt_dec a 0); [auto|]. destruct (Z_le_gt_dec b 0); [auto|].
    destruct (Z_le_gt_dec c 0); [auto|].
    destruct (canReach_returns a b c) as [r Hr]; [lia..|]. congruence.
  - intros H. exists invalid_input. auto.
  - done.
  - apply canReach_returns.
Qed.

(** C7 (the search never throws): for all integers [a], [b], [c], positive or
    not, [canReachBruteForce(a, b, c)] returns a boolean. *)
Theorem C7_search_never_throws (a b c : Z) :
  ∃ r : bool, canReachBruteForce a b c default_maxIterations = Return r.
Proof. apply canReachBruteForce_returns. Qed.




(** C9 (positive answers are sound): for positive [a], [b], [c], when
    [canReachBruteForce] returns [true] then [c] is [a] or [b] or a coordinate
    of a pair obtained from [(a, b)] by finitely many steps [(x, y) ↦ (x+y, y)]
    and [(x, y) ↦ (x, x+y)]. *)
Theorem C9_search_true_is_reachable (a b c maxIterations : Z) :
  0 < a → 0 < b → 0 < c →
  canReachBruteForce a b c maxIterations = Return true →
  reachable a b c.
Proof. intros _ _ _. apply canReachBruteForce_true_sound. Qed.

Lemma C9_search_true_is_reachable_witness : reachable 5 7 12.
Proof.
  apply (C9_search_true_is_reachable 5 7 12 default_maxIterations); [lia|lia|lia|].
  vm_compute. reflexivity.
Defined.

(** C10 (no duplicate exploration): in every state of a call, at the head of
    each round and at the return, the visited set is the set of keys of the
    pairs pushed so far, and no two pushes carry the same unordered pair; a
    push happens only for a key that was not visited and leaves that key in
    the visited set; and the visited set only grows from round to round. *)
Theorem C10_no_duplicate_exploration (a b c maxIterations : Z) :
  (∀ s, call_state a b c maxIterations s →
        visited s = list_to_set (key_of <$> pushed s) ∧
        (∀ p, p ∈ pushed s → key_of p ∈ visited s) ∧
        (∀ i j p q, pushed s !! i = Some p → pushed s !! j = Some q →
                    same_unordered p q → i = j)) ∧
  (∀ s child,
     let s' := (visit_child c child s).2 in
     s' = s ∨
     ((key_of child ∉ visited s) ∧ key_of child ∈ visited s' ∧
      queue s' = queue s ++ [child] ∧ pushed s' = pushed s ++ [child])) ∧
  (∀ s, visited s ⊆ visited (state_of (step c maxIterations s)) ∧
        pushed s `prefix_of` pushed (state_of (step c maxIterations s))) ∧
  (∀ r s, bfs a b c maxIterations = Return (r, s) →
          call_state a b c maxIterations s).
Proof.
  split_and!.
  - intros s Hs%call_state_deduplicated. split_and!.
    + apply Hs.
    + intros p Hp. destruct Hs as [-> _].
      apply elem_of_list_to_set, list_elem_of_fmap. eauto.
    + intros i j p q. by apply deduplicated_no_repeat.
  - intros s child s'. subst s'.
    destruct (visit_child_cases c child s) as [->|(_ & Hnew & ->)]; [by left|].
    right. split_and!; [done| |done|done]. cbn. apply elem_of_union_l.
    by apply elem_of_singleton.
  - intros s. apply step_grows.
  - intros r s. apply bfs_final_call_state.
Qed.

(** * Part V: further properties of the code *)

(** ** [gcd] on all integers *)

(** [gcd] returns for every pair of integers, zero and negative ones
    included, and what it returns is the non-negative greatest common divisor:
    it divides both arguments and every common divisor divides it. *)
Theorem gcd_is_greatest_common_divisor (x y : Z) :
  ∃ g, gcd x y = Return g ∧ 0 ≤ g ∧ (g | x) ∧ (g | y) ∧
       ∀ d, (d | x) → (d | y) → (d | g).
Proof.
  exists (Z.gcd x y). split_and!.
  - apply gcd_returns.
  - apply Z.gcd_nonneg.
  - apply Z.gcd_divide_l.
  - apply Z.gcd_divide_r.
  - intros d. apply Z.gcd_greatest.
Qed.

(** ** Every coprime combination is reached *)

Lemma reach_trans (a b x y : Z) (p : Z * Z) :
  reach a b (x, y) → reach x y p → reach a b p.
Proof. intros Hxy. induction 1; [done|by constructor..]. Qed.

(** The other half of the Calkin-Wilf characterisation, by descent on
    [m + n]: a step on the coefficients is a step on the generators. *)
Lemma coprime_combination_reached (k : nat) :
  ∀ m n a b, (Z.to_nat (m + n) ≤ k)%nat → 1 ≤ m → 1 ≤ n → Z.gcd m n = 1 →
             ∃ x y, reach a b (x, y) ∧ (x = m * a + n * b ∨ y = m * a + n * b).
Proof.
  induction k as [|k IH]; intros m n a b Hk Hm Hn Hg; [lia|].
  destruct (Z.lt_total m n) as [Hlt|[Heq|Hgt]].
  - destruct (IH m (n - m) (a + b) b) as (x & y & Hr & Hc); [lia|lia|lia| |].
    { rewrite Z.gcd_sub_diag_r. done. }
    exists x, y. split.
    + eapply reach_trans; [|done]. apply reach_left, reach_start.
    + destruct Hc as [->| ->]; [left|right]; ring.
  - subst n. rewrite Z.gcd_diag in Hg. assert (m = 1) as -> by lia.
    exists (a + b), b. split; [apply reach_left, reach_start|left; ring].
  - destruct (IH (m - n) n a (a + b)) as (x & y & Hr & Hc); [lia|lia|lia| |].
    { rewrite Z.gcd_comm, Z.gcd_sub_diag_r, Z.gcd_comm. done. }
    exists x, y. split.
    + eapply reach_trans; [|done]. apply reach_right, reach_start.
    + destruct Hc as [->| ->]; [left|right]; ring.
Qed.

Lemma coprime_rep_reachable (a b c n : Z) :
  1 ≤ n → coprime_rep a b c n → reachable a b c.
Proof.
  intros Hn (m & Hm & -> & Hg).
  destruct (coprime_combination_reached (Z.to_nat (m + n)) m n a b)
    as (x & y & Hr & Hc); [lia|done..|].
  right. right. exists x, y. split; [done|]. destruct Hc; auto.
Qed.

(** ** [canReach] against genuine reachability *)

Lemma canReach_true_reachable (a b c : Z) :
  canReach a b c = Return true → reachable a b c.
Proof.
  intros [->|[->|(n & Hn & Hrep)]]%canReach_true_sound.
  - by left.
  - right. by left.
  - by eapply coprime_rep_reachable.
Qed.

(** A [true] of [canReach] is never wrong: [c] is then [a], [b], or a
    coordinate of a pair that the two additions produce from [(a, b)]. *)
Theorem canReach_true_is_reachable (a b c : Z) :
  canReach a b c = Return true → reachable a b c.
Proof. apply canReach_true_reachable. Qed.

Lemma canReach_true_is_reachable_witness : reachable 3 5 11.
Proof. apply canReach_true_is_reachable. vm_compute. reflexivity. Defined.

Lemma reachable_canReach_small (a b c : Z) :
  0 < a → 0 < b → 0 < c → Z.quot (c - a) b ≤ 10000 →
  reachable a b c → canReach a b c = Return true.
Proof.
  intros Ha Hb Hc Hsmall [->|[->|(n & Hn & Hrep)]]%reachable_coprime_rep.
  - by rewrite canReach_positive, Z.eqb_refl.
  - by rewrite canReach_positive, Z.eqb_refl, orb_true_r.
  - by eapply canReach_complete_small.
Qed.

Lemma canReach_decides_when_small (a b c : Z) :
  0 < a → 0 < b → 0 < c → (c - a) / b ≤ 10000 →
  (canReach a b c = Return true ↔ reachable a b c) ∧
  (canReach a b c = Return false ↔ ¬ reachable a b c).
Proof.
  intros Ha Hb Hc Hsmall.
  assert (Hq : Z.quot (c - a) b ≤ 10000).
  { destruct (Z_le_gt_dec a c).
    - rewrite Z.quot_div_nonneg by lia. done.
    - pose proof (Z.quot_opp_l (a - c) b ltac:(lia)) as Ho.
      replace (- (a - c)) with (c - a) in Ho by lia.
      pose proof (Z.quot_pos (a - c) b ltac:(lia) ltac:(lia)). lia. }
  assert (Hiff : canReach a b c = Return true ↔ reachable a b c).
  { split; [apply canReach_true_reachable|by apply reachable_canReach_small]. }
  split; [done|].
  destruct (canReach_returns a b c Ha Hb Hc) as ([] & Hr); rewrite Hr in *.
  - split; [done|]. intros Hn. exfalso. apply Hn, Hiff. done.
  - split; [|done]. intros _ Hreach. apply Hiff in Hreach. done.
Qed.

(** Where the range [1..maxN] of candidates has at most 10,000 values the
    first loop tries them all, and [canReach] decides reachability exactly. *)
Theorem canReach_exact_when_small (a b c : Z) :
  0 < a → 0 < b → 0 < c → (c - a) / b ≤ 10000 →
  (canReach a b c = Return true ↔ reachable a b c) ∧
  (canReach a b c = Return false ↔ ¬ reachable a b c).
Proof. apply canReach_decides_when_small. Qed.

Lemma canReach_exact_when_small_witness :
  (canReach 4 6 20 = Return true ↔ reachable 4 6 20) ∧
  (canReach 4 6 20 = Return false ↔ ¬ reachable 4 6 20).
Proof. apply canReach_exact_when_small; [lia|lia|lia|by vm_compute]. Defined.

(** Beyond that the two windows can miss every coprime representation, as
    the comment of lines 132-136 warns: there are positive [a], [b], [c] with
    [c] reachable on which [canReach] answers [false]. *)
Theorem canReach_can_miss_a_reachable_value :
  ∃ a b c, 0 < a ∧ 0 < b ∧ 0 < c ∧ reachable a b c ∧ canReach a b c = Return false.
Proof.
  exists 20003, 2, 60008. split_and!; [lia|lia|lia| |].
  - apply (coprime_rep_reachable _ _ _ 10001); [lia|].
    exists 2. split_and!; [lia|reflexivity|reflexivity].
  - vm_compute. reflexivity.
Qed.

(** Exchanging the generators mirrors every reachable pair. *)
Lemma reach_swap (a b : Z) (p : Z * Z) : reach a b p → reach b a (p.2, p.1).
Proof.
  induction 1 as [|x y _ IH|x y _ IH]; cbn [fst snd] in *.
  - constructor.
  - replace (x + y) with (y + x) by lia. by apply reach_right.
  - replace (x + y) with (y + x) by lia. by apply reach_left.
Qed.

Lemma reachable_swap (a b c : Z) : reachable a b c → reachable b a c.
Proof.
  intros [->|[->|(x & y & Hr & Hc)]].
  - right. by left.
  - by left.
  - right. right. exists y, x. split; [by apply (reach_swap a b (x, y))|tauto].
Qed.

(** The order of the generators does not matter while both ranges of
    candidates are small, although the search runs over the coefficient of [b]
    only. *)
Theorem canReach_symmetric_when_small (a b c : Z) :
  0 < a → 0 < b → 0 < c → (c - a) / b ≤ 10000 → (c - b) / a ≤ 10000 →
  canReach a b c = canReach b a c.
Proof.
  intros Ha Hb Hc Hab Hba.
  destruct (canReach_decides_when_small a b c Ha Hb Hc Hab) as [Ht1 Hf1].
  destruct (canReach_decides_when_small b a c Hb Ha Hc Hba) as [Ht2 Hf2].
  destruct (canReach_returns a b c Ha Hb Hc) as ([] & Hr); rewrite Hr; symmetry.
  - apply Ht2, reachable_swap, Ht1, Hr.
  - apply Hf2. intros H%reachable_swap. by apply Hf1 in Hr.
Qed.

Lemma canReach_symmetric_when_small_witness : canReach 5 7 123 = canReach 7 5 123.
Proof.
  apply canReach_symmetric_when_small; [lia|lia|lia|by vm_compute|by vm_compute].
Defined.

(** ** The two engines on small inputs, for every cap *)



(** ** Raising the cap *)

Lemma step_Next_cap_mono (c m m' : Z) (s s' : state) :
  m ≤ m' → step c m s = Next s' → step c m' s = Next s'.
Proof.
  intros Hle. unfold step. destruct (queue s) as [|[x y] q]; [done|].
  cbn [count_iteration iterations].
  destruct (Z.gtb_spec (iterations s + 1) m); [done|].
  destruct (Z.gtb_spec (iterations s + 1) m'); [lia|done].
Qed.

Lemma step_Done_true_cap_mono (c m m' : Z) (s s' : state) :
  m ≤ m' → step c m s = Done true s' → step c m' s = Done true s'.
Proof.
  intros Hle. unfold step. destruct (queue s) as [|[x y] q]; [done|].
  cbn [count_iteration iterations].
  destruct (Z.gtb_spec (iterations s + 1) m); [done|].
  destruct (Z.gtb_spec (iterations s + 1) m'); [lia|done].
Qed.

Lemma bfs_loop_true_mono (c m m' : Z) (fuel : nat) :
  m ≤ m' →
  ∀ fuel' s s', (fuel ≤ fuel')%nat →
                bfs_loop fuel c m s = Return (true, s') →
                bfs_loop fuel' c m' s = Return (true, s').
Proof.
  intros Hle. induction fuel as [|fuel IH]; intros fuel' s s' Hfuel; [done|].
  destruct fuel' as [|fuel']; [lia|]. rewrite !bfs_loop_S.
  destruct (step c m s) as [r s0|s0] eqn:Hstep.
  - intros [= -> ->]. by rewrite (step_Done_true_cap_mono c m m' s s').
  - rewrite (step_Next_cap_mono c m m' s s0) by done. apply IH. lia.
Qed.

(** A larger budget never loses a positive answer. *)
Theorem canReachBruteForce_true_cap_mono (a b c maxIterations maxIterations' : Z) :
  maxIterations ≤ maxIterations' →
  canReachBruteForce a b c maxIterations = Return true →
  canReachBruteForce a b c maxIterations' = Return true.
Proof.
  intros Hle. unfold canReachBruteForce.
  destruct ((c =? a) || (c =? b)); [done|].
  destruct ((c <? a) && (c <? b)); [done|].
  destruct (bfs_returns a b c maxIterations) as (r & s & Hrun).
  rewrite Hrun, bind_Return. intros Hr.
  assert (r = true) as -> by (by injection Hr).
  unfold bfs in *.
  rewrite (bfs_loop_true_mono c maxIterations maxIterations'
             (S (Z.to_nat maxIterations)) Hle (S (Z.to_nat maxIterations'))
             (init_state a b) s ltac:(lia) Hrun).
  done.
Qed.

Lemma canReachBruteForce_true_cap_mono_witness :
  canReachBruteForce 3 5 11 2000 = Return true.
Proof.
  apply (canReachBruteForce_true_cap_mono 3 5 11 3 2000); [lia|].
  vm_compute. reflexivity.
Defined.

(** ** A target strictly between the generators *)

(** For [a < c < b] only the cap ends the search.  With a finite cap below
    [2 ^ 53] it answers [false] at the cap check, having dequeued as many
    pairs as the whole part of the cap (none for a negative cap), with a pair
    still waiting in the queue.  With a finite cap of [2 ^ 53] or more, with
    [Infinity] and with [NaN] it has not returned after any number of
    rounds. *)
Theorem gap_search_uses_whole_budget (a b c : Z) :
  0 < a → a < c → c < b →
  (∀ q, Qfloor q < 2 ^ 53 →
        ∃ fuel s,
          canReachBruteForce_number fuel a b c (Finite q) = Return false ∧
          bfs_loop_number fuel c (Finite q) (init_state a b) = Return (false, s) ∧
          Z.of_nat (length (shifted s)) = Z.max 0 (Qfloor q) ∧ queue s ≠ []) ∧
  (∀ q fuel, 2 ^ 53 ≤ Qfloor q →
             canReachBruteForce_number fuel a b c (Finite q) = Diverge) ∧
  (∀ fuel, canReachBruteForce_number fuel a b c PosInfinity = Diverge) ∧
  (∀ fuel, canReachBruteForce_number fuel a b c NaN = Diverge).
Proof.
  intros Ha Hac Hcb. split_and!.
  - intros q Hq. exists (S (Z.to_nat (Qfloor q))).
    assert (Hrun : ∃ s, bfs_loop (S (Z.to_nat (Qfloor q))) c (Qfloor q)
                          (init_state a b) = Return (false, s) ∧
                        (iterations s >? Qfloor q) = true ∧ queue s ≠ []).
    { destruct (Z.le_gt_cases 0 (Qfloor q)) as [Hpos|Hneg].
      - destruct (gap_search_ends_at_cap a b c (Qfloor q) Ha Hac Hcb Hpos)
          as (s & Hrun & Hit & Hqueue).
        exists s. split_and!; [done| |done].
        rewrite Hit. apply Z.gtb_lt. lia.
      - exists (count_iteration (init_state a b)).
        rewrite bfs_loop_S, step_cap by (cbn; done || lia).
        split_and!; [done| |done]. apply Z.gtb_lt. cbn. lia. }
    destruct Hrun as (s & Hrun & Hpast & Hqueue). exists s.
    destruct (bfs_loop_account a b c (Qfloor q) _ false s Hrun)
      as (Hlen & Hcount & _).
    rewrite Hpast in Hcount.
    assert (Hhead : iterations s ≤ Z.max 0 (Qfloor q) + 1).
    { clear Hcount. revert Hrun Hpast.
      destruct (Z.le_gt_cases 0 (Qfloor q)) as [Hpos|Hneg].
      - destruct (gap_search_ends_at_cap a b c (Qfloor q) Ha Hac Hcb Hpos)
          as (s1 & Hrun1 & Hit & _).
        unfold bfs in Hrun1. rewrite Hrun1. intros [= <-] _. lia.
      - rewrite bfs_loop_S, step_cap by (cbn; done || lia).
        intros [= <-] _. cbn. lia. }
    apply Z.gtb_lt in Hpast.
    split_and!; [|by rewrite bfs_loop_number_finite|lia|done].
    unfold canReachBruteForce_number. rewrite bfs_loop_number_finite, Hrun by done.
    destruct (Z.eqb_spec c a); [lia|]. destruct (Z.eqb_spec c b); [lia|].
    by destruct (Z.ltb_spec c a); [lia|].
  - intros q fuel Hq. apply gap_number_never_returns; [done..|].
    intros n. by apply greater_than_never.
  - intros fuel. by apply gap_number_never_returns.
  - intros fuel. by apply gap_number_never_returns.
Qed.

Lemma gap_search_uses_whole_budget_witness :
  (∀ q, Qfloor q < 2 ^ 53 →
        ∃ fuel s,
          canReachBruteForce_number fuel 2 5 3 (Finite q) = Return false ∧
          bfs_loop_number fuel 3 (Finite q) (init_state 2 5) = Return (false, s) ∧
          Z.of_nat (length (shifted s)) = Z.max 0 (Qfloor q) ∧ queue s ≠ []) ∧
  (∀ q fuel, 2 ^ 53 ≤ Qfloor q →
             canReachBruteForce_number fuel 2 5 3 (Finite q) = Diverge) ∧
  (∀ fuel, canReachBruteForce_number fuel 2 5 3 PosInfinity = Diverge) ∧
  (∀ fuel, canReachBruteForce_number fuel 2 5 3 NaN = Diverge).
Proof. apply gap_search_uses_whole_budget; lia. Defined.

(** ** First in, first out *)

Lemma visit_child_fifo (c : Z) (child : Z * Z) (s : state) :
  pushed s = shifted s ++ queue s →
  pushed (visit_child c child s).2 =
  shifted (visit_child c child s).2 ++ queue (visit_child c child s).2.
Proof.
  intros Hs. destruct (visit_child_cases c child s) as [->|(_ & _ & ->)]; [done|].
  cbn. by rewrite Hs, app_assoc.
Qed.

Lemma visit_children_fifo (c : Z) (children : list (Z * Z)) :
  ∀ s, pushed s = shifted s ++ queue s →
       pushed (visit_children c children s).2 =
       shifted (visit_children c children s).2 ++
       queue (visit_children c children s).2.
Proof.
  induction children as [|child rest IH]; intros s Hs; [done|].
  cbn [visit_children].
  pose proof (visit_child_fifo c child s Hs) as H1.
  destruct (visit_child c child s) as [[] s1]; cbn [snd] in *; [done|].
  by apply IH.
Qed.

Lemma step_fifo (c maxIterations : Z) (s : state) :
  pushed s = shifted s ++ queue s →
  pushed (state_of (step c maxIterations s)) =
  shifted (state_of (step c maxIterations s)) ++
  queue (state_of (step c maxIterations s)).
Proof.
  intros Hs. unfold step. destruct (queue s) as [|[x y] q] eqn:Hq.
  { cbn. by rewrite Hs, Hq. }
  destruct (iterations (count_iteration s) >? maxIterations).
  { cbn. by rewrite Hs, Hq. }
  match goal with |- context [visit_children c ?l ?t] =>
    pose proof (visit_children_fifo c l t) as H;
    destruct (visit_children c l t) as [[] s3] end;
    apply H; cbn; by rewrite Hs, <- app_assoc.
Qed.

(** In every state of a call the pairs pushed so far are the pairs already
    dequeued followed by the pairs still queued: pairs leave the queue in the
    order in which they entered it, none is lost and none is served twice. *)
Theorem queue_is_first_in_first_out (a b c maxIterations : Z) (s : state) :
  call_state a b c maxIterations s → pushed s = shifted s ++ queue s.
Proof.
  induction 1 as [|s s' _ IH Hstep|s r s' _ IH Hstep].
  - done.
  - pose proof (step_fifo c maxIterations s IH) as H. by rewrite Hstep in H.
  - pose proof (step_fifo c maxIterations s IH) as H. by rewrite Hstep in H.
Qed.

Lemma queue_is_first_in_first_out_witness :
  let s := state_of (step 100 10 (init_state 5 7)) in
  pushed s = [(5, 7); (12, 7); (5, 12)] ∧ shifted s = [(5, 7)] ∧
  pushed s = shifted s ++ queue s.
Proof.
  cbn zeta. split_and!; [by vm_compute|by vm_compute|].
  apply (queue_is_first_in_first_out 5 7 100 10).
  eapply call_round; [apply call_start|]. by vm_compute.
Defined.

(** ** [solve] and [solveBruteForce] *)

Lemma canReach_returns_or_rejects (a b c : Z) :
  (0 < a ∧ 0 < b ∧ 0 < c ∧ ∃ r : bool, canReach a b c = Return r) ∨
  ((a ≤ 0 ∨ b ≤ 0 ∨ c ≤ 0) ∧ canReach a b c = Throw invalid_input).
Proof.
  destruct (Z_le_gt_dec a 0) as [Ha|Ha]; [|destruct (Z_le_gt_dec b 0) as [Hb|Hb];
    [|destruct (Z_le_gt_dec c 0) as [Hc|Hc]]].
  - right. split; [auto|]. unfold canReach. by rewrite (proj2 (Z.leb_le a 0) Ha).
  - right. split; [auto|]. unfold canReach.
    by rewrite (proj2 (Z.leb_le b 0) Hb), orb_true_r.
  - right. split; [auto|]. unfold canReach.
    by rewrite (proj2 (Z.leb_le c 0) Hc), orb_true_r.
  - left. split_and!; [lia..|]. apply canReach_returns; lia.
Qed.

(** [solve] never throws and writes exactly one line.  On a non-positive
    argument the line is the error message, on standard error, and the result
    is [false]; on positive arguments the line is [YES] or [NO], on standard
    output, and the result is the answer of [canReach].  A result [true] means
    that [c] is reachable. *)
Theorem solve_prints_what_it_returns (a b c : Z) :
  ∃ out r,
    solve a b c = Return (out, r) ∧
    (a ≤ 0 ∨ b ≤ 0 ∨ c ≤ 0 →
     out = [Stderr "Error: All values must be positive integers"] ∧ r = false) ∧
    (0 < a → 0 < b → 0 < c →
     out = [Stdout (if r then "YES" else "NO")] ∧ canReach a b c = Return r) ∧
    (r = true → reachable a b c).
Proof.
  unfold solve.
  destruct (canReach_returns_or_rejects a b c)
    as [(Ha & Hb & Hc & r & Hr)|[Hneg Hr]]; rewrite Hr; cbn [solve_with].
  - exists [Stdout (if r then "YES" else "NO")], r. split_and!; [done| |done|].
    + lia.
    + intros ->. by apply canReach_true_reachable.
  - eexists _, false. split_and!; [done|done|lia|done].
Qed.

(** [solveBruteForce] never throws either, and its [catch] branch is never
    taken on integers: it writes [YES] or [NO] on standard output and returns
    that answer, the one of the search with the default cap; [YES] means that
    [c] is reachable. *)
Theorem solveBruteForce_prints_what_it_returns (a b c : Z) :
  ∃ r : bool,
    solveBruteForce a b c = Return ([Stdout (if r then "YES" else "NO")], r) ∧
    canReachBruteForce a b c default_maxIterations = Return r ∧
    (r = true → reachable a b c).
Proof.
  unfold solveBruteForce.
  destruct (canReachBruteForce_returns a b c default_maxIterations) as (r & Hr).
  exists r. rewrite Hr. split_and!; [done|done|].
  intros ->. by eapply canReachBruteForce_true_sound.
Qed.

(** ** The test harness *)

(** One call of [test] returns; it either counts the case as passed, once
    for each engine that ran, or counts one failure. *)
Lemma test_counts (a b c : Z) (skipTreeSearch : bool) (t : tally) :
  ∃ t', test a b c skipTreeSearch t = Return t' ∧
        ((case_passes (a, b, c, skipTreeSearch) ∧ failed t' = failed t ∧
          passed t' = passed t + passes_of (a, b, c, skipTreeSearch)) ∨
         (¬ case_passes (a, b, c, skipTreeSearch) ∧ failed t' = failed t + 1 ∧
          passed t ≤ passed t' ≤ passed t + 1)).
Proof.
  unfold test, case_passes, passes_of. cbn [snd].
  destruct (canReach_returns_or_rejects a b c)
    as [(_ & _ & _ & r & Hr)|[_ Hr]]; rewrite Hr.
  - destruct skipTreeSearch; cbn [negb].
    + eexists. split; [done|]. left. cbn. split_and!; [|done..]. eauto.
    + destruct (canReachBruteForce_returns a b c default_maxIterations)
        as (r' & Hr'). rewrite Hr'.
      destruct (Bool.eqb r' r) eqn:Heq.
      * apply Bool.eqb_prop in Heq as ->.
        eexists. split; [done|]. left. cbn. split_and!; [|done|lia]. eauto.
      * eexists. split; [done|]. right. cbn. split_and!; [|done|lia..].
        intros (r0 & [= <-] & [?|[= <-]]); [done|].
        by rewrite Bool.eqb_reflx in Heq.
  - eexists. split; [done|]. right. cbn. split_and!; [|done|lia..].
    by intros (r0 & ? & _).
Qed.

Lemma run_tests_counts (cases : list (Z * Z * Z * bool)) (t : tally) :
  ∃ t', run_tests cases t = Return t' ∧
        failed t ≤ failed t' ∧ passed t ≤ passed t' ∧
        (failed t' = failed t ↔ Forall case_passes cases) ∧
        (Forall case_passes cases →
         passed t' = passed t + foldr (λ case n, passes_of case + n) 0 cases).
Proof.
  revert t. induction cases as [|[[[a b] c] skip] rest IH]; intros t.
  { exists t. cbn. split_and!; [done|lia|lia| |intros _; lia].
    split; [constructor|done]. }
  cbn [run_tests].
  destruct (test_counts a b c skip t) as (t1 & -> & Hcase). rewrite bind_Return.
  destruct (IH t1) as (t' & -> & Hf & Hp & Hiff & Hsum).
  exists t'. split; [done|].
  destruct Hcase as [(Hok & Hf1 & Hp1)|(Hbad & Hf1 & Hp1)].
  - split_and!; [lia|unfold passes_of in Hp1; destruct skip; cbn in Hp1; lia| |].
    + rewrite <- Hf1, Hiff. split; [by constructor|by inversion 1].
    + intros [_ Hrest]%Forall_cons. rewrite (Hsum Hrest), Hp1. cbn [foldr]. lia.
  - split_and!; [lia|lia| |].
    + split; [lia|]. by intros [? _]%Forall_cons.
    + by intros [? _]%Forall_cons.
Qed.


(** The agreement on the corpus, once more by running the engines. *)
Lemma corpus_engines_agree : Forall engines_agree corpus.
Proof.
  unfold corpus.
  repeat (apply List.Forall_cons;
          [unfold engines_agree; first [agree_negative | agree_positive]|]).
  apply List.Forall_nil.
Qed.

(** The test script passes: it ends with 48 tests passed and none failed, and
    so does not call [process.exit(1)]. *)
Theorem test_script_passes :
  ∃ t, test_script = Return (t, 0) ∧ passed t = 48 ∧ failed t = 0.
Proof.
  unfold test_script.
  destruct (run_tests_counts ((λ abc, (abc, false)) <$> corpus)
              {| passed := 0; failed := 0; reports := [] |})
    as (t & -> & _ & _ & Hiff & Hsum).
  assert (Hall : Forall case_passes ((λ abc, (abc, false)) <$> corpus)).
  { apply Forall_fmap. eapply Forall_impl; [apply corpus_engines_agree|].
    intros [[a b] c] (r & Hm & Ht). exists r. auto. }
  apply Hiff in Hall as Hf. apply Hsum in Hall as Hp. cbn in Hf.
  exists t. rewrite bind_Return. split_and!; [by rewrite Hf|by rewrite Hp|done].
Qed.

(** ** The search finds every reachable value, given budget enough *)



Lemma within_mono (c : Z) (k : nat) :
  ∀ k' p, (k ≤ k')%nat → within c k p → within c k' p.
Proof.
  induction k as [|k IH]; intros k' p Hle; cbn [within].
  - intros [H|[]]. destruct k'; by left.
  - destruct k' as [|k']; [lia|]. cbn [within].
    intros [H|[H|H]]; [by left|right; left|right; right]; (apply IH; [lia|done]).
Qed.












